(** * adev-lru: an LRU cache with per-entry expiry

    A shallow embedding of the [LRUCache] class of adev-lru and the proofs of
    its recency, capacity, expiry and accounting properties.

    The class keeps a [Map] from keys to node objects and threads the same
    node objects on a doubly linked list ([head] is the most recently used
    entry, [tail] the least recently used one).  Node objects are mutable and
    shared between the map and the list, so the embedding has an explicit
    object store: a node reference is an index in that store, and every
    assignment to [node.prev] or [node.next] is an update of the store.

    Two revisions of the class are in the repository:
    - release 1.3.0 (the file with [getOption]); its methods are embedded in
      [Module LRUCache] under the source's names;
    - release 1.0.1 ([src/index.ts]); [prepend], [pop], [evict], [put] and
      [clearMetrics] are the same code, while [get] and [clear] differ and
      are embedded as [get_v1] and [clear_v1].

    [Date.now()] is an input of the embedding (the argument [now]); times and
    capacities are integers; the three counters are natural numbers; a
    result [T | undefined] is an [option T], for a [T] that has no
    [undefined] of its own.

    The file has two parts: the embedding and the definitions the statements
    are made of, then the proofs.  The proofs relate the pointer code to the
    list of entries it represents (the representation invariant [Repr] and
    the functions [putL] and [getL] on lists) and derive the properties of
    the cache from that relation. *)

From stdpp Require Import gmap strings list fin_maps.
From Stdlib Require Import ZArith Lia.

(** A reference to a node object: its index in the object store. *)
Abbreviation ref := nat.

(** The result of [getOption]: the present/absent container of adev-monads,
    of which the class uses the two constructors [Option.some] and
    [Option.none]. *)
Inductive Option (A : Type) : Type :=
| some (a : A)
| none.
Arguments some {A} a.
Arguments none {A}.

(** What [getOption] wraps: [undefined] as [none], a value as [some]. *)
Definition wrapOption {A} (r : option A) : Option A :=
  match r with
  | Some v => some v
  | None => none
  end.

Module LinkedNode.
Section Node.
Context {T : Type}.

(** Modelled from the spec: the interface [LinkedNode<T>] of
    [./interfaces], which is not among the source files.  The spec's data
    model gives an entry a key, a value, an absolute expiry timestamp and
    the two links; the class names the timestamp field [ttl] and leaves
    [prev] and [next] out of the object literal it creates, so both
    links are optional. *)
Record t := Node {
  key : string;
  value : T;
  ttl : Z;
  prev : option ref;
  next : option ref
}.

(** [n.prev = v] and [n.next = v]. *)
Definition withPrev (v : option ref) (n : t) : t :=
  Node (key n) (value n) (ttl n) v (next n).
Definition withNext (v : option ref) (n : t) : t :=
  Node (key n) (value n) (ttl n) (prev n) v.
End Node.
Arguments t : clear implicits.
End LinkedNode.

Abbreviation LinkedNode := LinkedNode.t.

(** ** The object store

    The node objects, in the order of their creation.  A reference read from
    the index, from [head] or [tail] or from a link always denotes a node of
    the store (see [index_and_list_consistent]); reading a field through a
    reference outside the store yields [None], and an assignment through it
    changes nothing, but neither happens in a run of the class. *)

Section Store.
Context {T : Type}.
Implicit Types (h : list (LinkedNode T)) (r : ref).

(** Reading [r.prev] and [r.next]. *)
Definition prevOf h r : option ref := h !! r ≫= LinkedNode.prev.
Definition nextOf h r : option ref := h !! r ≫= LinkedNode.next.

(** The assignments [r.prev = v] and [r.next = v]. *)
Definition setPrev r (v : option ref) h : list (LinkedNode T) :=
  alter (LinkedNode.withPrev v) r h.
Definition setNext r (v : option ref) h : list (LinkedNode T) :=
  alter (LinkedNode.withNext v) r h.
End Store.

Module LRUCache.
Section Class.
Context {T : Type}.

(** The fields of the class, and the store [heap] of the node objects its
    references point into. *)
Record t := Cache {
  capacity : Z;
  hash : gmap string ref;
  head : option ref;
  tail : option ref;
  hitCount : nat;
  missCount : nat;
  evictionCount : nat;
  heap : list (LinkedNode T)
}.

(** [new LRUCache(capacity)].  (The constructor also publishes [debugLRU]
    on the global object; that binding is no part of the cache state.) *)
Definition constructor (capacity : Z) : t :=
  Cache capacity ∅ None None 0 0 0 [].

(** [LRUCache.getInstance(capacity = 10)]: the static field [instance] is
    threaded as an [option]; the result is the instance returned and the
    new content of the static field. *)
Definition getInstance (instance : option t) (capacity : option Z)
  : t * option t :=
  match instance with
  | Some c => (c, Some c)
  | None =>
      let c := constructor (default 10%Z capacity) in
      (c, Some c)
  end.

(** [prepend(key, value, ttl)]: a new node object, indexed and linked
    before the head; the result is the node. *)
Definition prepend (key : string) (value : T) (ttl : Z) (s : t) : ref * t :=
  let node := length (heap s) in
  let h1 := heap s ++ [LinkedNode.Node key value ttl None None] in
  let hash1 := <[key := node]> (hash s) in
  match head s with
  | None =>
      (node, Cache (capacity s) hash1 (Some node) (Some node)
               (hitCount s) (missCount s) (evictionCount s) h1)
  | Some hd =>
      let h2 := setNext node (Some hd) h1 in
      let h3 := setPrev hd (Some node) h2 in
      (node, Cache (capacity s) hash1 (Some node) (tail s)
               (hitCount s) (missCount s) (evictionCount s) h3)
  end.

(** [pop()]: the tail is unlinked and returned ([None] on an empty list);
    the index is left to the caller. *)
Definition pop (s : t) : option ref * t :=
  match tail s with
  | None => (None, s)
  | Some node =>
      let '(hd1, tl1, h1) :=
        match prevOf (heap s) node with
        | Some p =>
            let h1 := setNext p None (heap s) in
            (head s, prevOf h1 node, h1)
        | None => (None, None, heap s)
        end in
      (Some node, Cache (capacity s) (hash s) hd1 tl1
                    (hitCount s) (missCount s) (evictionCount s)
                    (setPrev node None h1))
  end.

(** [evict(node)]: the six statements of the method, one binding each; the
    fields of [node] are read again after every assignment. *)
Definition evict (node : ref) (s : t) : t :=
  let h0 := heap s in
  let h1 := match prevOf h0 node with
            | Some p => setNext p (nextOf h0 node) h0
            | None => h0
            end in
  let h2 := match nextOf h1 node with
            | Some n => setPrev n (prevOf h1 node) h1
            | None => h1
            end in
  let hd := if decide (head s = Some node) then nextOf h2 node else head s in
  let tl := if decide (tail s = Some node) then prevOf h2 node else tail s in
  let h3 := setNext node None (setPrev node None h2) in
  let hash1 := match h3 !! node with
               | Some n => delete (LinkedNode.key n) (hash s)
               | None => hash s
               end in
  Cache (capacity s) hash1 hd tl
    (hitCount s) (missCount s) (evictionCount s) h3.

(** [this.hash.set] and [this.hash.delete] change the map only. *)
Definition withHash (m : gmap string ref) (s : t) : t :=
  Cache (capacity s) m (head s) (tail s)
    (hitCount s) (missCount s) (evictionCount s) (heap s).

(** [put(key, value, ttl)] at time [now]; the caller passes 60000 for an
    omitted [ttl].  The result [this] is the new state. *)
Definition put (now : Z) (key : string) (value : T) (ttl : Z) (s : t) : t :=
  let s1 := match hash s !! key with
            | Some node => evict node s
            | None => s
            end in
  let '(node, s2) := prepend key value (now + ttl)%Z s1 in
  let s3 := withHash (<[key := node]> (hash s2)) s2 in
  if (capacity s3 <? Z.of_nat (size (hash s3)))%Z then
    let '(tailNode, s4) := pop s3 in
    match tailNode ≫= (heap s4 !!.) with
    | Some n =>
        Cache (capacity s4) (delete (LinkedNode.key n) (hash s4))
          (head s4) (tail s4)
          (hitCount s4) (missCount s4) (S (evictionCount s4)) (heap s4)
    | None => s4
    end
  else s3.

(** [this.missCount++] and [this.hitCount++]. *)
Definition miss (s : t) : t :=
  Cache (capacity s) (hash s) (head s) (tail s)
    (hitCount s) (S (missCount s)) (evictionCount s) (heap s).

Definition hit (s : t) : t :=
  Cache (capacity s) (hash s) (head s) (tail s)
    (S (hitCount s)) (missCount s) (evictionCount s) (heap s).

(** [this.hash.get(key)], with the node object the reference denotes. *)
Definition lookup (key : string) (s : t) : option (ref * LinkedNode T) :=
  r ← hash s !! key; n ← heap s !! r; Some (r, n).

(** [get(key)] of release 1.3.0 at time [now]; [None] is [undefined].  The
    fields of [node] passed to [prepend] are read after [evict], as in the
    source. *)
Definition get (now : Z) (key : string) (s : t) : option T * t :=
  match lookup key s with
  | None => (None, miss s)
  | Some (node, n) =>
      if (LinkedNode.ttl n <? now)%Z then (None, miss s)
      else
        let s1 := evict node s in
        match heap s1 !! node with
        | Some n1 =>
            let '(_, s2) :=
              prepend (LinkedNode.key n1) (LinkedNode.value n1)
                (LinkedNode.ttl n1) s1 in
            (Some (LinkedNode.value n1), hit s2)
        | None => (None, s1)
        end
  end.

(** [getOption(key)] of release 1.3.0 at time [now]: the body of [get]
    once more, with [Option.none()] and [Option.some(node.value)] for the
    results. *)
Definition getOption (now : Z) (key : string) (s : t) : Option T * t :=
  match lookup key s with
  | None => (none, miss s)
  | Some (node, n) =>
      if (LinkedNode.ttl n <? now)%Z then (none, miss s)
      else
        let s1 := evict node s in
        match heap s1 !! node with
        | Some n1 =>
            let '(_, s2) :=
              prepend (LinkedNode.key n1) (LinkedNode.value n1)
                (LinkedNode.ttl n1) s1 in
            (some (LinkedNode.value n1), hit s2)
        | None => (none, s1)
        end
  end.

(** [clearMetrics()]. *)
Definition clearMetrics (s : t) : t :=
  Cache (capacity s) (hash s) (head s) (tail s) 0 0 0 (heap s).

(** [clear()] of release 1.3.0. *)
Definition clear (s : t) : t :=
  clearMetrics
    (Cache (capacity s) ∅ None None
       (hitCount s) (missCount s) (evictionCount s) (heap s)).

(** [get(key)] of release 1.0.1 ([src/index.ts]): the node is unlinked
    before its expiry is looked at. *)
Definition get_v1 (now : Z) (key : string) (s : t) : option T * t :=
  match lookup key s with
  | None => (None, miss s)
  | Some (node, _) =>
      let s1 := evict node s in
      match heap s1 !! node with
      | Some n1 =>
          if (LinkedNode.ttl n1 <? now)%Z then (None, miss s1)
          else
            let '(_, s2) :=
              prepend (LinkedNode.key n1) (LinkedNode.value n1)
                (LinkedNode.ttl n1) s1 in
            (Some (LinkedNode.value n1), hit s2)
      | None => (None, s1)
      end
  end.

(** [clear()] of release 1.0.1: the counters are left as they are. *)
Definition clear_v1 (s : t) : t :=
  Cache (capacity s) ∅ None None
    (hitCount s) (missCount s) (evictionCount s) (heap s).
End Class.
Arguments t : clear implicits.
End LRUCache.

Import LRUCache.
Abbreviation LRUCache := LRUCache.t.

(** ** Entries and the recency order

    What a node holds, apart from its links: the key, the value and the
    expiry timestamp. *)

Abbreviation Entry T := (string * T * Z)%type.

Section Entries.
Context {T : Type}.
Implicit Types (e : Entry T) (h : list (LinkedNode T)) (r : ref).

Definition ekey e : string := e.1.1.
Definition evalue e : T := e.1.2.
Definition ettl e : Z := e.2.

Definition data (n : LinkedNode T) : Entry T :=
  (LinkedNode.key n, LinkedNode.value n, LinkedNode.ttl n).

Definition dataAt h r : option (Entry T) := data <$> h !! r.
Definition keyAt h r : option string := LinkedNode.key <$> h !! r.

(** Following the links from [cur]: the references visited, or [None] when
    the walk has not come to an end after [fuel] nodes. *)
Fixpoint walk (link : LinkedNode T → option ref) h (fuel : nat)
    (cur : option ref) : option (list ref) :=
  match cur with
  | None => Some []
  | Some r =>
      match fuel with
      | 0 => None
      | S fuel' =>
          n ← h !! r;
          l ← walk link h fuel' (link n);
          Some (r :: l)
      end
  end.

(** The list from the head by [next], and from the tail by [prev]; no
    walk without a cycle is longer than the store. *)
Definition fromHead (s : LRUCache T) : option (list ref) :=
  walk LinkedNode.next (heap s) (length (heap s)) (head s).
Definition fromTail (s : LRUCache T) : option (list ref) :=
  walk LinkedNode.prev (heap s) (length (heap s)) (tail s).

(** The entries of the cache in recency order, most recent first. *)
Definition entries (s : LRUCache T) : list (Entry T) :=
  omap (dataAt (heap s)) (default [] (fromHead s)).
End Entries.

(** ** Sequences of calls

    The public methods as calls, each with the time at which it is made.
    [GetV1] and [ClearV1] are the [get] and [clear] of release 1.0.1.
    [run cs (constructor cap)] is the state of a new cache of capacity [cap]
    after the calls [cs], in that order. *)

Inductive Call (T : Type) : Type :=
| Put (now : Z) (key : string) (value : T) (ttl : Z)
| Get (now : Z) (key : string)
| GetOption (now : Z) (key : string)
| Clear
| ClearMetrics
| GetV1 (now : Z) (key : string)
| ClearV1.
Arguments Put {T} now key value ttl.
Arguments Get {T} now key.
Arguments GetOption {T} now key.
Arguments Clear {T}.
Arguments ClearMetrics {T}.
Arguments GetV1 {T} now key.
Arguments ClearV1 {T}.

Section Calls.
Context {T : Type}.
Implicit Types (s : LRUCache T) (c : Call T) (cs : list (Call T)).

(** The state after a call (the result of the call is dropped). *)
Definition call c s : LRUCache T :=
  match c with
  | Put now key value ttl => put now key value ttl s
  | Get now key => (get now key s).2
  | GetOption now key => (getOption now key s).2
  | Clear => clear s
  | ClearMetrics => clearMetrics s
  | GetV1 now key => (get_v1 now key s).2
  | ClearV1 => clear_v1 s
  end.

Definition run cs s : LRUCache T := foldl (λ s c, call c s) s cs.
End Calls.

(** A [put] call as a tuple: the time of the call, the key, the value and
    the time to live. *)
Definition putCall {T} (p : Z * string * T * Z) : Call T :=
  let '(now, key, value, ttl) := p in Put now key value ttl.

Definition putKey {T} (p : Z * string * T * Z) : string := p.1.1.2.

(** The entry the call stores. *)
Definition putEntry {T} (p : Z * string * T * Z) : Entry T :=
  let '(now, key, value, ttl) := p in (key, value, (now + ttl)%Z).

(** ** What is observed of a cache *)

(** The expiry timestamp of the entry a key is indexed to. *)
Definition expiresAt {T} (key : string) (s : LRUCache T) : option Z :=
  (LinkedNode.ttl ∘ snd) <$> lookup key s.

(** The index and the recency list of a cache agree, and the list is doubly
    linked: [l] is the list of nodes from the head by [next], and read
    backwards the list from the tail by [prev]. *)
Record Consistent {T} (s : LRUCache T) (l : list ref) : Prop := {
  cons_next : fromHead s = Some l;
  cons_prev : fromTail s = Some (reverse l);
  cons_acyclic : NoDup l;
  cons_head : head s ≫= prevOf (heap s) = None;
  cons_tail : tail s ≫= nextOf (heap s) = None;
  cons_index : ∀ k r,
    hash s !! k = Some r ↔ r ∈ l ∧ keyAt (heap s) r = Some k;
  cons_size : size (hash s) = length l
}.

(** ** Doubly linked segments

    [dlseg h p l q]: in the store [h] the nodes [l] are linked one after the
    other, the first one's [prev] being [p] and the last one's [next] being
    [q]. *)

Section Segments.
Context {T : Type}.
Implicit Types (h : list (LinkedNode T)) (r : ref) (l : list ref)
  (p q : option ref).

Definition firstOr q l : option ref :=
  match l with
  | [] => q
  | r :: _ => Some r
  end.

Definition lastOr p l : option ref :=
  match last l with
  | Some r => Some r
  | None => p
  end.

Fixpoint dlseg h p l q : Prop :=
  match l with
  | [] => True
  | r :: l' =>
      ∃ n, h !! r = Some n ∧ LinkedNode.prev n = p ∧
           LinkedNode.next n = firstOr q l' ∧ dlseg h (Some r) l' q
  end.
End Segments.

(** ** The representation invariant

    [Chain s l]: the recency list of [s] is the list of nodes [l], from the
    head to the tail.  [Index s l]: the map of [s] indexes the nodes [l], each
    under its key.  [view h l L]: the nodes [l] hold the entries [L]. *)

Section Representation.
Context {T : Type}.
Implicit Types (s : LRUCache T) (h : list (LinkedNode T))
  (l : list ref) (L : list (Entry T)) (r : ref).

Record Chain s l : Prop := {
  chain_nodup : NoDup l;
  chain_seg : dlseg (heap s) None l None;
  chain_head : head s = hd_error l;
  chain_tail : tail s = last l
}.

Record Index (m : gmap string ref) h l : Prop := {
  index_lookup : ∀ k r, m !! k = Some r ↔ r ∈ l ∧ keyAt h r = Some k;
  index_size : size m = length l
}.

Definition view h l L : Prop :=
  Forall2 (λ r e, dataAt h r = Some e) l L.

Definition Repr s l L : Prop :=
  Chain s l ∧ Index (hash s) (heap s) l ∧ view (heap s) l L.

(** The abstraction relation: the cache [s] holds the entries [L], most
    recently used first. *)
Definition Abs s L : Prop := ∃ l, Repr s l L.
End Representation.

(** ** The recency order as a list of entries

    What the methods do to the list of entries (most recently used first);
    the pointer code is related to these functions by the lemmas on
    the methods, and the properties of the cache are proved through them. *)

Section RecencyList.
Context {T : Type}.
Implicit Types (L : list (Entry T)) (e : Entry T) (k : string).

(** The entries other than the one of key [k]. *)
Definition without k L : list (Entry T) :=
  filter (λ e, ekey e ≠ k) L.

(** The first entry of key [k]. *)
Fixpoint findEntry k L : option (Entry T) :=
  match L with
  | [] => None
  | e :: L' => if decide (ekey e = k) then Some e else findEntry k L'
  end.

(** [put]: the entry replaces the one of its key and goes first; over the
    capacity the last entry goes. *)
Definition putL (cap : Z) e L : list (Entry T) :=
  let L1 := e :: without (ekey e) L in
  if (cap <? Z.of_nat (length L1))%Z then removelast L1 else L1.

(** [get] and [getOption]: a live entry goes first. *)
Definition getL (now : Z) k L : option T * list (Entry T) :=
  match findEntry k L with
  | Some e =>
      if (ettl e <? now)%Z then (None, L)
      else (Some (evalue e), e :: without k L)
  | None => (None, L)
  end.

(** [get] of release 1.0.1: an expired entry goes. *)
Definition getL_v1 (now : Z) k L : option T * list (Entry T) :=
  match findEntry k L with
  | Some e =>
      if (ettl e <? now)%Z then (None, without k L)
      else (Some (evalue e), e :: without k L)
  | None => (None, L)
  end.
End RecencyList.

(** The calls on the list of entries. *)

Section CallsOnLists.
Context {T : Type}.
Implicit Types (L : list (Entry T)) (c : Call T) (cs : list (Call T)).

Definition callL (cap : Z) c L : list (Entry T) :=
  match c with
  | Put now key value ttl => putL cap (key, value, (now + ttl)%Z) L
  | Get now key | GetOption now key => (getL now key L).2
  | Clear | ClearV1 => []
  | ClearMetrics => L
  | GetV1 now key => (getL_v1 now key L).2
  end.

Definition runL (cap : Z) cs L : list (Entry T) :=
  foldl (λ L c, callL cap c L) L cs.
End CallsOnLists.

(** ** The debug dump *)

Section Dump.
Context {T : Type}.

(** The loop of [debugLRU()],
    [for (let i = 0; node !== undefined && i < this.capacity; i++)]: the
    lines [console.log(i, node)] it writes, each as the index and the node
    object, the node then being [node.next].  [left] counts the indices
    still below the capacity. *)
Fixpoint debugLoop (h : list (LinkedNode T)) (left : nat) (i : nat)
    (node : option ref) : list (nat * LinkedNode T) :=
  match left, node with
  | S left', Some r =>
      match h !! r with
      | Some n => (i, n) :: debugLoop h left' (S i) (LinkedNode.next n)
      | None => []
      end
  | _, _ => []
  end.

(** The node lines of [debugLRU()], from [this.head] and index 0. *)
Definition debugNodes (s : LRUCache T) : list (nat * LinkedNode T) :=
  debugLoop (heap s) (Z.to_nat (capacity s)) 0 (head s).
End Dump.

(** ** The calls of the test file *)

(** The calls that [tests/lru.test.ts] makes on the one shared instance
    (of capacity 3), in the order of the file, up to the point where the test
    of the metrics reads the counters; [beforeEach] calls [clear] before each
    test.  [clear'] and [get'] are the [clear] and [get] of the release under
    test.  The clock stands at 0 but in the test of the expiry, which puts
    with 1000 ms to live and moves the clock by 500 and then by 600; the
    other calls of [put] leave the time to live at its default, 60000. *)
Definition testCalls (clear' : Call string)
    (get' : Z → string → Call string) : list (Call string) :=
  [ (* should store and retrieve a value *)
    clear'; Put 0 "key1" "value1" 60000; get' 0%Z "key1";
    (* should return undefined for a missing key *)
    clear'; get' 0%Z "missing";
    (* should evict least recently used item when capacity is exceeded *)
    clear'; Put 0 "key1" "value1" 60000; Put 0 "key2" "value2" 60000;
    Put 0 "key3" "value3" 60000; Put 0 "key4" "value4" 60000;
    get' 0%Z "key1"; get' 0%Z "key2"; get' 0%Z "key4";
    (* should update an existing key and move it to the head *)
    clear'; Put 0 "key1" "value1" 60000; Put 0 "key2" "value2" 60000;
    Put 0 "key1" "newValue1" 60000; get' 0%Z "key1";
    Put 0 "key3" "value3" 60000; Put 0 "key4" "value4" 60000;
    get' 0%Z "key2";
    (* should respect TTL and expire items *)
    clear'; Put 0 "key1" "value1" 1000; get' 500%Z "key1";
    get' 1100%Z "key1";
    (* should clear all items *)
    clear'; Put 0 "key1" "value1" 60000; Put 0 "key2" "value2" 60000;
    clear'; get' 0%Z "key1"; get' 0%Z "key2";
    (* should track hit and miss metrics correctly *)
    clear'; Put 0 "key1" "value1" 60000; Put 0 "key2" "value2" 60000;
    get' 0%Z "key1"; get' 0%Z "key2"; get' 0%Z "key3" ].

(** ** What a sequence of calls asks for *)

Section Histories.
Context {T : Type}.
Implicit Types (c : Call T) (cs : list (Call T)).

(** The reads ([get], [getOption]) since the counters were last reset, by
    [clear] or [clearMetrics] of release 1.3.0. *)
Definition readsSinceReset cs : nat :=
  foldl (λ n c, match c with
                | Get _ _ | GetOption _ _ | GetV1 _ _ => S n
                | Clear | ClearMetrics => 0
                | Put _ _ _ _ | ClearV1 => n
                end) 0 cs.

(** The entry of the last [put] of a key since the cache was last
    cleared. *)
Definition lastPut (key : string) cs : option (Entry T) :=
  foldl (λ o c, match c with
                | Put now key' value ttl =>
                    if decide (key' = key)
                    then Some (key', value, (now + ttl)%Z) else o
                | Clear | ClearV1 => None
                | Get _ _ | GetOption _ _ | GetV1 _ _ | ClearMetrics => o
                end) None cs.

(** The keys the calls put, one for each [put]. *)
Definition putKeys cs : list string :=
  omap (λ c, match c with Put _ key _ _ => Some key | _ => None end) cs.

(** The calls of release 1.0.1. *)
Definition isV1 c : bool :=
  match c with
  | GetV1 _ _ | ClearV1 => true
  | _ => false
  end.

(** The keys the calls use, one for each [put] and each read. *)
Definition touchedKeys cs : list string :=
  omap (λ c, match c with
             | Put _ key _ _ | Get _ key | GetOption _ key | GetV1 _ key =>
                 Some key
             | Clear | ClearMetrics | ClearV1 => None
             end) cs.

(** The keys used other than [key]. *)
Definition others (key : string) (ks : list string) : list string :=
  filter (λ k', k' ≠ key) ks.

(** The calls that take entries out other than by eviction: [clear], and
    the [get] of release 1.0.1 on an expired entry. *)
Definition dropsEntries c : bool :=
  match c with
  | Clear | ClearV1 | GetV1 _ _ => true
  | Put _ _ _ _ | Get _ _ | GetOption _ _ | ClearMetrics => false
  end.

(** The calls that set the three counters to zero: [clearMetrics], and
    [clear] of release 1.3.0, which calls it. *)
Definition resetsMetrics c : bool :=
  match c with
  | Clear | ClearMetrics => true
  | Put _ _ _ _ | Get _ _ | GetOption _ _ | GetV1 _ _ | ClearV1 => false
  end.
End Histories.

(** * Proofs *)

(** ** The store under the link assignments *)

Section StoreFacts.
Context {T : Type}.
Implicit Types (h : list (LinkedNode T)) (r : ref) (v : option ref).

Lemma lookup_setPrev h r r' v :
  setPrev r v h !! r' =
    if decide (r = r') then LinkedNode.withPrev v <$> h !! r' else h !! r'.
Proof.
  unfold setPrev. rewrite list_lookup_alter.
  repeat case_decide; by subst.
Qed.

Lemma lookup_setNext h r r' v :
  setNext r v h !! r' =
    if decide (r = r') then LinkedNode.withNext v <$> h !! r' else h !! r'.
Proof.
  unfold setNext. rewrite list_lookup_alter.
  repeat case_decide; by subst.
Qed.

Lemma length_setPrev h r v : length (setPrev r v h) = length h.
Proof. apply length_alter. Qed.

Lemma length_setNext h r v : length (setNext r v h) = length h.
Proof. apply length_alter. Qed.

Lemma dataAt_setPrev h r r' v : dataAt (setPrev r v h) r' = dataAt h r'.
Proof.
  unfold dataAt. rewrite lookup_setPrev.
  case_decide; [|done]. by destruct (h !! r').
Qed.

Lemma dataAt_setNext h r r' v : dataAt (setNext r v h) r' = dataAt h r'.
Proof.
  unfold dataAt. rewrite lookup_setNext.
  case_decide; [|done]. by destruct (h !! r').
Qed.

Lemma dataAt_app h n r : r < length h → dataAt (h ++ [n]) r = dataAt h r.
Proof. intros ?. unfold dataAt. by rewrite lookup_app_l. Qed.

Lemma keyAt_dataAt h r : keyAt h r = ekey <$> dataAt h r.
Proof. unfold keyAt, dataAt. by destruct (h !! r). Qed.

Lemma prevOf_setNext h r r' v : prevOf (setNext r v h) r' = prevOf h r'.
Proof.
  unfold prevOf. rewrite lookup_setNext.
  case_decide; [|done]. by destruct (h !! r').
Qed.

Lemma nextOf_setPrev h r r' v : nextOf (setPrev r v h) r' = nextOf h r'.
Proof.
  unfold nextOf. rewrite lookup_setPrev.
  case_decide; [|done]. by destruct (h !! r').
Qed.
End StoreFacts.

(** ** Facts on doubly linked segments *)

Section SegmentFacts.
Context {T : Type}.
Implicit Types (h : list (LinkedNode T)) (r : ref) (l : list ref)
  (p q : option ref).

Lemma firstOr_None l : firstOr None l = hd_error l.
Proof. by destruct l. Qed.

Lemma lastOr_None l : lastOr None l = last l.
Proof. unfold lastOr. by destruct (last l). Qed.

Lemma firstOr_app q l1 l2 : firstOr q (l1 ++ l2) = firstOr (firstOr q l2) l1.
Proof. by destruct l1. Qed.

Lemma lastOr_cons p r l : lastOr p (r :: l) = lastOr (Some r) l.
Proof.
  unfold lastOr. rewrite last_cons. by destruct (last l).
Qed.

Lemma lastOr_snoc p l r : lastOr p (l ++ [r]) = Some r.
Proof. unfold lastOr. by rewrite last_snoc. Qed.

Lemma dlseg_app h p l1 l2 q :
  dlseg h p (l1 ++ l2) q ↔
  dlseg h p l1 (firstOr q l2) ∧ dlseg h (lastOr p l1) l2 q.
Proof.
  revert p. induction l1 as [|r l1 IH]; intros p; simpl.
  - unfold lastOr. simpl. tauto.
  - rewrite lastOr_cons, firstOr_app. split.
    + intros (n & ? & ? & ? & Hseg). apply IH in Hseg as [??]. eauto 10.
    + intros [(n & ? & ? & ? & ?) ?]. exists n. rewrite IH. eauto.
Qed.

(** The nodes of a segment are allocated. *)
Lemma dlseg_lookup h p l q r :
  dlseg h p l q → r ∈ l → is_Some (h !! r).
Proof.
  revert p. induction l as [|r' l IH]; intros p Hseg Hin.
  - by apply elem_of_nil in Hin.
  - destruct Hseg as (n & ? & _ & _ & ?).
    apply elem_of_cons in Hin as [->|?]; eauto.
Qed.

Lemma dlseg_lt h p l q r : dlseg h p l q → r ∈ l → r < length h.
Proof.
  intros Hseg Hin. destruct (dlseg_lookup _ _ _ _ _ Hseg Hin).
  by eapply lookup_lt_Some.
Qed.

(** Frame: a segment only depends on the nodes it is made of. *)
Lemma dlseg_frame h h' p l q :
  (∀ r, r ∈ l → h' !! r = h !! r) → dlseg h p l q → dlseg h' p l q.
Proof.
  revert p. induction l as [|r l IH]; intros p Hsame; [done|].
  intros (n & ? & ? & ? & ?). exists n. split_and!; try done.
  - rewrite Hsame; [done|]. by left.
  - apply IH; [|done]. intros. apply Hsame. by right.
Qed.

Lemma dlseg_setPrev_frame h p l q r v :
  r ∉ l → dlseg h p l q → dlseg (setPrev r v h) p l q.
Proof.
  intros ?. apply dlseg_frame. intros r' ?. rewrite lookup_setPrev.
  case_decide; [by subst|done].
Qed.

Lemma dlseg_setNext_frame h p l q r v :
  r ∉ l → dlseg h p l q → dlseg (setNext r v h) p l q.
Proof.
  intros ?. apply dlseg_frame. intros r' ?. rewrite lookup_setNext.
  case_decide; [by subst|done].
Qed.

Lemma dlseg_alloc h p l q n : dlseg h p l q → dlseg (h ++ [n]) p l q.
Proof.
  intros Hseg. eapply dlseg_frame; [|done].
  intros r ?. apply lookup_app_l. by eapply dlseg_lt.
Qed.

(** [r.prev = v] on the first node of a segment. *)
Lemma dlseg_setPrev_first h p r l q v :
  r ∉ l → dlseg h p (r :: l) q → dlseg (setPrev r v h) v (r :: l) q.
Proof.
  intros ? (n & Hn & ? & ? & ?).
  exists (LinkedNode.withPrev v n). split_and!; try done.
  - rewrite lookup_setPrev, decide_True, Hn; done.
  - by apply dlseg_setPrev_frame.
Qed.

(** [r.next = v] on the last node of a segment. *)
Lemma dlseg_setNext_last h p l r q v :
  r ∉ l → dlseg h p (l ++ [r]) q → dlseg (setNext r v h) p (l ++ [r]) v.
Proof.
  intros ?. rewrite !dlseg_app. simpl.
  intros [? (n & Hn & ? & ? & _)]. split.
  - by apply dlseg_setNext_frame.
  - exists (LinkedNode.withNext v n). split_and!; try done.
    rewrite lookup_setNext, decide_True, Hn; done.
Qed.
End SegmentFacts.

(** ** The methods keep the representation invariant *)

Section RepresentationFacts.
Context {T : Type}.
Implicit Types (s : LRUCache T) (h : list (LinkedNode T))
  (l : list ref) (L : list (Entry T)) (r : ref).

(** *** Unlinking a node *)

Lemma unlink_seg h l1 r l2 :
  NoDup (l1 ++ r :: l2) →
  dlseg h None (l1 ++ r :: l2) None →
  let h1 := match prevOf h r with
            | Some p => setNext p (nextOf h r) h
            | None => h
            end in
  let h2 := match nextOf h1 r with
            | Some n => setPrev n (prevOf h1 r) h1
            | None => h1
            end in
  dlseg h2 None (l1 ++ l2) None ∧
  nextOf h2 r = hd_error l2 ∧ prevOf h2 r = last l1.
Proof.
  intros Hnd Hseg.
  apply NoDup_app in Hnd as (Hnd1 & Hdisj & Hnd2).
  apply NoDup_cons in Hnd2 as [Hr2 Hnd2].
  assert (Hr1 : r ∉ l1) by (intros ?; eapply Hdisj; [done|by left]).
  assert (Hdisj' : ∀ x, x ∈ l1 → x ∉ l2)
    by (intros x ? ?; eapply Hdisj; [done|by right]).
  apply dlseg_app in Hseg as [HA HB]. simpl in HA.
  destruct HB as (n & Hn & Hprev & Hnext & HC).
  rewrite lastOr_None in Hprev. rewrite firstOr_None in Hnext.
  assert (Hp0 : prevOf h r = last l1) by (unfold prevOf; by rewrite Hn).
  assert (Hn0 : nextOf h r = hd_error l2) by (unfold nextOf; by rewrite Hn).
  intros h1 h2.
  (* the first assignment: [node.prev.next = node.next] *)
  assert (H1 : dlseg h1 None l1 (hd_error l2) ∧ h1 !! r = Some n ∧
               dlseg h1 (Some r) l2 None).
  { subst h1. rewrite Hp0, Hn0.
    destruct l1 as [|p l1 _] using rev_ind; [done|].
    rewrite last_snoc. apply NoDup_app in Hnd1 as (_ & Hp & _).
    split_and!.
    - eapply dlseg_setNext_last; [|done].
      intros ?. eapply Hp; [done|by left].
    - rewrite lookup_setNext, decide_False; [done|].
      intros ->. apply Hr1, elem_of_app. right. by left.
    - apply dlseg_setNext_frame; [|done].
      apply Hdisj', elem_of_app. right. by left. }
  destruct H1 as (HA1 & Hn1 & HC1).
  assert (Hp1 : prevOf h1 r = last l1) by (unfold prevOf; by rewrite Hn1).
  assert (Hn1' : nextOf h1 r = hd_error l2)
    by (unfold nextOf; by rewrite Hn1).
  (* the second assignment: [node.next.prev = node.prev] *)
  assert (H2 : dlseg h2 None l1 (hd_error l2) ∧ h2 !! r = Some n ∧
               dlseg h2 (last l1) l2 None).
  { subst h2. rewrite Hp1, Hn1'.
    destruct l2 as [|x l2]; [done|]. simpl.
    apply NoDup_cons in Hnd2 as [Hx _].
    split_and!.
    - apply dlseg_setPrev_frame; [|done].
      intros ?. eapply Hdisj'; [done|by left].
    - rewrite lookup_setPrev, decide_False; [done|].
      intros ->. apply Hr2. by left.
    - by eapply dlseg_setPrev_first. }
  destruct H2 as (HA2 & Hn2 & HC2).
  split_and!.
  - apply dlseg_app. by rewrite firstOr_None, lastOr_None.
  - unfold nextOf. by rewrite Hn2.
  - unfold prevOf. by rewrite Hn2.
Qed.

Lemma evict_dataAt s r r' :
  dataAt (heap (evict r s)) r' = dataAt (heap s) r'.
Proof.
  unfold evict. simpl. rewrite dataAt_setNext, dataAt_setPrev.
  destruct (nextOf _ r); destruct (prevOf (heap s) r);
    by rewrite ?dataAt_setPrev, ?dataAt_setNext.
Qed.

Lemma evict_keyAt s r r' :
  keyAt (heap (evict r s)) r' = keyAt (heap s) r'.
Proof. by rewrite !keyAt_dataAt, evict_dataAt. Qed.

Lemma evict_length s r : length (heap (evict r s)) = length (heap s).
Proof.
  unfold evict. simpl. rewrite length_setNext, length_setPrev.
  destruct (nextOf _ r); destruct (prevOf (heap s) r);
    by rewrite ?length_setPrev, ?length_setNext.
Qed.

Lemma evict_hash s r k :
  keyAt (heap s) r = Some k → hash (evict r s) = delete k (hash s).
Proof.
  intros Hk. rewrite <- (evict_keyAt s r) in Hk.
  unfold keyAt in Hk. unfold evict in *. simpl in *.
  destruct (_ !! r); by simplify_eq/=.
Qed.

Lemma evict_chain s l1 r l2 :
  Chain s (l1 ++ r :: l2) → Chain (evict r s) (l1 ++ l2).
Proof.
  intros [Hnd Hseg Hhd Htl].
  destruct (unlink_seg _ _ _ _ Hnd Hseg) as (Hseg' & Hnx & Hpv).
  pose proof Hnd as Hnd'.
  apply NoDup_app in Hnd' as (Hnd1 & Hdisj & Hnd2).
  apply NoDup_cons in Hnd2 as [Hr2 Hnd2].
  assert (Hr1 : r ∉ l1) by (intros ?; eapply Hdisj; [done|by left]).
  assert (r ∉ l1 ++ l2) by (rewrite elem_of_app; tauto).
  split.
  - apply NoDup_app. split_and!; [done| |done].
    intros x ? ?. eapply Hdisj; [done|by right].
  - unfold evict. simpl.
    by apply dlseg_setNext_frame, dlseg_setPrev_frame.
  - unfold evict. simpl. rewrite Hhd. destruct l1 as [|a l1]; simpl.
    + by rewrite decide_True.
    + rewrite decide_False; [done|].
      intros [= ->]. apply Hr1. by left.
  - unfold evict. simpl. rewrite Htl.
    destruct l2 as [|x l2 _] using rev_ind.
    + rewrite last_snoc, decide_True, app_nil_r; done.
    + rewrite app_comm_cons, !app_assoc, !last_snoc.
      rewrite decide_False; [done|].
      intros [= ->]. apply Hr2, elem_of_app. right. by left.
Qed.

(** Taking a node out of the index under its key. *)
Lemma index_delete m h l1 r l2 k :
  NoDup (l1 ++ r :: l2) → keyAt h r = Some k →
  Index m h (l1 ++ r :: l2) → Index (delete k m) h (l1 ++ l2).
Proof.
  intros Hnd Hk [Hix Hsz].
  assert (Hr : m !! k = Some r).
  { apply Hix. split; [|done]. apply elem_of_app. right. by left. }
  apply NoDup_app in Hnd as (_ & Hdisj & Hnd2).
  apply NoDup_cons in Hnd2 as [Hr2 _].
  assert (Hr1 : r ∉ l1) by (intros ?; eapply Hdisj; [done|by left]).
  split.
  - intros k' r'.
    destruct (decide (k' = k)) as [->|Hne].
    + rewrite lookup_delete_eq. split; [done|].
      intros [Hin' Hk']. assert (r' = r) as ->.
      { assert (m !! k = Some r') as Hr'.
        { apply Hix. split; [|done].
          apply elem_of_app in Hin' as [?|?]; apply elem_of_app;
            [by left|right; by right]. }
        congruence. }
      apply elem_of_app in Hin' as [?|?]; done.
    + rewrite lookup_delete_ne by done. rewrite Hix.
      rewrite !elem_of_app, elem_of_cons. split.
      * intros [[?|[->|?]] ?]; [tauto| |tauto]. congruence.
      * tauto.
  - rewrite map_size_delete_Some by eauto.
    rewrite Hsz, !length_app. simpl. lia.
Qed.

Lemma index_frame m h h' l :
  (∀ r, r ∈ l → keyAt h' r = keyAt h r) → Index m h l → Index m h' l.
Proof.
  intros Hsame [Hix Hsz]. split; [|done].
  intros k r. rewrite Hix. split; intros [Hin Hk]; split; try done.
  - by rewrite Hsame.
  - by rewrite <- Hsame.
Qed.

Lemma evict_index s l1 r l2 :
  Chain s (l1 ++ r :: l2) → Index (hash s) (heap s) (l1 ++ r :: l2) →
  Index (hash (evict r s)) (heap (evict r s)) (l1 ++ l2).
Proof.
  intros [Hnd Hseg _ _] Hix.
  assert (Hin : r ∈ l1 ++ r :: l2) by (apply elem_of_app; right; by left).
  destruct (dlseg_lookup _ _ _ _ _ Hseg Hin) as [n Hn].
  assert (Hk : keyAt (heap s) r = Some (LinkedNode.key n))
    by (unfold keyAt; by rewrite Hn).
  rewrite (evict_hash _ _ _ Hk).
  eapply index_frame; [intros; apply evict_keyAt|].
  by eapply index_delete.
Qed.

(** *** Inserting a node at the head *)

Lemma prepend_fields s key value ttl :
  let s' := (prepend key value ttl s).2 in
  (prepend key value ttl s).1 = length (heap s) ∧
  hash s' = <[key := length (heap s)]> (hash s) ∧
  capacity s' = capacity s ∧ hitCount s' = hitCount s ∧
  missCount s' = missCount s ∧ evictionCount s' = evictionCount s.
Proof. unfold prepend. by destruct (head s). Qed.

Lemma prepend_dataAt_new s key value ttl :
  dataAt (heap (prepend key value ttl s).2) (length (heap s)) =
    Some (key, value, ttl).
Proof.
  unfold prepend.
  destruct (head s); simpl; rewrite ?dataAt_setPrev, ?dataAt_setNext;
    unfold dataAt; by rewrite list_lookup_middle.
Qed.

Lemma prepend_dataAt_old s key value ttl r :
  r < length (heap s) →
  dataAt (heap (prepend key value ttl s).2) r = dataAt (heap s) r.
Proof.
  intros ?. unfold prepend.
  destruct (head s); simpl; rewrite ?dataAt_setPrev, ?dataAt_setNext;
    by apply dataAt_app.
Qed.

Lemma prepend_length s key value ttl :
  length (heap (prepend key value ttl s).2) = S (length (heap s)).
Proof.
  unfold prepend.
  destruct (head s); simpl;
    rewrite ?length_setPrev, ?length_setNext, length_app; simpl; lia.
Qed.

Lemma prepend_chain s l key value ttl :
  Chain s l → Chain (prepend key value ttl s).2 (length (heap s) :: l).
Proof.
  intros [Hnd Hseg Hhd Htl].
  assert (Hnew : length (heap s) ∉ l).
  { intros Hin. apply (dlseg_lt _ _ _ _ _ Hseg) in Hin. lia. }
  unfold prepend. rewrite Hhd. destruct l as [|a l]; simpl.
  - split; simpl; [apply NoDup_singleton| |done|done].
    eexists. split_and!; [by apply list_lookup_middle|done..].
  - assert (a ≠ length (heap s)) by (intros ->; apply Hnew; by left).
    apply NoDup_cons in Hnd as Hnd'. destruct Hnd' as [Ha _].
    split; simpl.
    + by apply NoDup_cons.
    + exists (LinkedNode.Node key value ttl None (Some a)).
      split_and!; try done.
      * rewrite lookup_setPrev, decide_False by done.
        rewrite lookup_setNext, decide_True by done.
        by rewrite list_lookup_middle.
      * eapply dlseg_setPrev_first; [done|].
        apply dlseg_setNext_frame; [done|]. by apply dlseg_alloc.
    + done.
    + by rewrite Htl.
Qed.

Lemma prepend_index s l key value ttl :
  Chain s l → Index (hash s) (heap s) l → hash s !! key = None →
  Index (hash (prepend key value ttl s).2) (heap (prepend key value ttl s).2)
    (length (heap s) :: l).
Proof.
  intros [_ Hseg _ _] [Hix Hsz] Hfresh.
  destruct (prepend_fields s key value ttl) as (_ & Hh & _).
  pose proof (prepend_dataAt_new s key value ttl) as Hnew.
  assert (Hold : ∀ r, r ∈ l →
    keyAt (heap (prepend key value ttl s).2) r = keyAt (heap s) r).
  { intros r Hin. rewrite !keyAt_dataAt, prepend_dataAt_old; [done|].
    by eapply dlseg_lt. }
  assert (Hlt : length (heap s) ∉ l).
  { intros Hin. apply (dlseg_lt _ _ _ _ _ Hseg) in Hin. lia. }
  split.
  - intros k r. rewrite Hh, elem_of_cons.
    destruct (decide (key = k)) as [->|Hne].
    + rewrite lookup_insert_eq. split.
      * intros [= <-]. split; [by left|].
        by rewrite keyAt_dataAt, Hnew.
      * intros [[->|Hin] Hk]; [done|].
        rewrite Hold in Hk by done.
        assert (hash s !! k = Some r) by (by apply Hix). congruence.
    + rewrite lookup_insert_ne by done. rewrite Hix. split.
      * intros [Hin Hk]. split; [by right|]. by rewrite Hold.
      * intros [[->|Hin] Hk].
        -- rewrite keyAt_dataAt, Hnew in Hk. by injection Hk.
        -- split; [done|]. by rewrite <- Hold.
  - rewrite Hh, map_size_insert_None by done. simpl. by rewrite Hsz.
Qed.

Lemma view_frame h h' l L :
  (∀ r, r ∈ l → dataAt h' r = dataAt h r) → view h l L → view h' l L.
Proof.
  intros Hsame Hview. revert Hsame.
  induction Hview as [|r e l L He _ IH]; intros Hsame; [constructor|].
  constructor.
  - rewrite Hsame; [done|]. by left.
  - apply IH. intros. apply Hsame. by right.
Qed.

Lemma prepend_repr s l L key value ttl :
  Repr s l L → hash s !! key = None →
  Repr (prepend key value ttl s).2 (length (heap s) :: l)
    ((key, value, ttl) :: L).
Proof.
  intros (Hch & Hix & Hview) ?. split_and!.
  - by apply prepend_chain.
  - by apply prepend_index.
  - constructor; [apply prepend_dataAt_new|].
    eapply view_frame; [|done]. intros r ?.
    apply prepend_dataAt_old. eapply dlseg_lt; [apply Hch|done].
Qed.

Lemma evict_repr s l1 r l2 L1 e L2 :
  length l1 = length L1 →
  Repr s (l1 ++ r :: l2) (L1 ++ e :: L2) →
  Repr (evict r s) (l1 ++ l2) (L1 ++ L2).
Proof.
  intros Hlen (Hch & Hix & Hview). split_and!.
  - by apply evict_chain.
  - by apply evict_index.
  - apply Forall2_app_inv in Hview as [H1 H2]; [|done].
    apply Forall2_cons in H2 as [_ H2].
    apply Forall2_app; (eapply view_frame; [|done]);
      intros; apply evict_dataAt.
Qed.

(** *** Removing the tail *)

Lemma pop_fields s :
  let s' := (pop s).2 in
  hash s' = hash s ∧ capacity s' = capacity s ∧
  hitCount s' = hitCount s ∧ missCount s' = missCount s ∧
  evictionCount s' = evictionCount s.
Proof.
  unfold pop. destruct (tail s); [|done].
  by destruct (prevOf (heap s) _).
Qed.

Lemma pop_dataAt s r : dataAt (heap (pop s).2) r = dataAt (heap s) r.
Proof.
  unfold pop. destruct (tail s); [|done].
  destruct (prevOf (heap s) _); simpl;
    by rewrite ?dataAt_setPrev, ?dataAt_setNext.
Qed.

Lemma pop_chain s l t :
  Chain s (l ++ [t]) → (pop s).1 = Some t ∧ Chain (pop s).2 l.
Proof.
  intros [Hnd Hseg Hhd Htl].
  apply NoDup_app in Hnd as (Hnd & Hdisj & _).
  assert (Ht : t ∉ l) by (intros ?; eapply Hdisj; [done|by left]).
  pose proof Hseg as Hseg'.
  apply dlseg_app in Hseg' as [HA (n & Hn & Hprev & _)].
  rewrite lastOr_None in Hprev. simpl in HA.
  assert (Hp : prevOf (heap s) t = last l)
    by (unfold prevOf; by rewrite Hn).
  unfold pop. rewrite Htl, last_snoc, Hp.
  destruct l as [|p l _] using rev_ind; simpl.
  - split; [done|]. by split.
  - rewrite last_snoc. simpl. split; [done|].
    apply NoDup_app in Hnd as Hnd'. destruct Hnd' as (_ & Hp' & _).
    split; simpl.
    + done.
    + apply dlseg_setPrev_frame; [done|].
      eapply dlseg_setNext_last; [|done].
      intros ?. eapply Hp'; [done|by left].
    + rewrite Hhd. by destruct l.
    + by rewrite prevOf_setNext, Hp, !last_snoc.
Qed.
End RepresentationFacts.

(** ** Facts on lists of entries *)

Section RecencyListFacts.
Context {T : Type}.
Implicit Types (L : list (Entry T)) (e : Entry T) (k : string).

Lemma without_notin k L : k ∉ ekey <$> L → without k L = L.
Proof.
  induction L as [|e L IH]; [done|]. rewrite fmap_cons, not_elem_of_cons.
  intros [? ?]. unfold without in *. rewrite filter_cons_True by done.
  by rewrite IH.
Qed.

Lemma findEntry_notin k L : k ∉ ekey <$> L → findEntry k L = None.
Proof.
  induction L as [|e L IH]; [done|]. rewrite fmap_cons, not_elem_of_cons.
  intros [? ?]. simpl. rewrite decide_False by done. by apply IH.
Qed.

Lemma without_middle L1 e L2 :
  NoDup (ekey <$> L1 ++ e :: L2) →
  without (ekey e) (L1 ++ e :: L2) = L1 ++ L2.
Proof.
  rewrite fmap_app, fmap_cons. intros Hnd.
  apply NoDup_app in Hnd as (_ & Hdisj & Hnd).
  apply NoDup_cons in Hnd as [? _].
  unfold without. rewrite filter_app, filter_cons_False by naive_solver.
  fold (without (ekey e) L1). fold (without (ekey e) L2).
  rewrite !without_notin; [done..|].
  intros ?. eapply Hdisj; [done|by left].
Qed.

Lemma findEntry_middle L1 e L2 :
  NoDup (ekey <$> L1 ++ e :: L2) →
  findEntry (ekey e) (L1 ++ e :: L2) = Some e.
Proof.
  rewrite fmap_app, fmap_cons. intros Hnd.
  apply NoDup_app in Hnd as (_ & Hdisj & _).
  assert (Hnot : ekey e ∉ ekey <$> L1)
    by (intros ?; eapply Hdisj; [done|by left]).
  clear Hdisj. induction L1 as [|e1 L1 IH]; simpl.
  - by rewrite decide_True.
  - rewrite fmap_cons, not_elem_of_cons in Hnot. destruct Hnot.
    rewrite decide_False by done. by apply IH.
Qed.

Lemma findEntry_Some k L e :
  findEntry k L = Some e → e ∈ L ∧ ekey e = k.
Proof.
  induction L as [|e' L IH]; [done|]. simpl. case_decide.
  - intros [= ->]. split; [by left|done].
  - intros [? ?]%IH. split; [by right|done].
Qed.

Lemma findEntry_None k L : findEntry k L = None → k ∉ ekey <$> L.
Proof.
  induction L as [|e' L IH]; simpl.
  - intros _. apply not_elem_of_nil.
  - case_decide; [done|]. intros ?%IH.
    rewrite not_elem_of_cons. split; [congruence|done].
Qed.

Lemma elem_of_without k e L : e ∈ without k L ↔ e ∈ L ∧ ekey e ≠ k.
Proof. unfold without. rewrite list_elem_of_filter. tauto. Qed.

Lemma without_keys_notin k L : k ∉ ekey <$> without k L.
Proof.
  rewrite list_elem_of_fmap. intros (e & -> & Hin).
  by apply elem_of_without in Hin as [_ ?].
Qed.

Lemma without_length k L : length (without k L) ≤ length L.
Proof. apply length_filter. Qed.
End RecencyListFacts.

(** ** The methods on the represented list *)

Arguments evict : simpl never.
Arguments prepend : simpl never.
Arguments pop : simpl never.

Section Refinement.
Context {T : Type}.
Implicit Types (s : LRUCache T) (l : list ref) (L : list (Entry T))
  (r : ref) (k : string).

(** The counters and the capacity are no part of the representation. *)
Lemma Repr_ext s s' l L :
  hash s' = hash s → head s' = head s → tail s' = tail s →
  heap s' = heap s → Repr s l L → Repr s' l L.
Proof.
  intros Hh Hhd Htl Hhp ([? ? ? ?] & ? & ?).
  split_and!; [split|..]; by rewrite ?Hh, ?Hhd, ?Htl, ?Hhp.
Qed.

Lemma Repr_keyAt s l L i r e :
  Repr s l L → l !! i = Some r → L !! i = Some e →
  hash s !! ekey e = Some r.
Proof.
  intros (_ & [Hix _] & Hview) Hl HL. apply Hix. split.
  - by eapply list_elem_of_lookup_2.
  - destruct (Forall2_lookup_l _ _ _ _ _ Hview Hl) as (e' & HL' & He).
    simpl in He. rewrite keyAt_dataAt, He. simpl. congruence.
Qed.

Lemma Repr_keys_NoDup s l L : Repr s l L → NoDup (ekey <$> L).
Proof.
  intros HR. apply NoDup_alt. intros i j k.
  rewrite !list_lookup_fmap.
  destruct (L !! i) as [e|] eqn:Hi; [|done].
  destruct (L !! j) as [e'|] eqn:Hj; [|done].
  simpl. intros [= Hk] [= Hk'].
  pose proof HR as (Hch & _ & Hview).
  destruct (Forall2_lookup_r _ _ _ _ _ Hview Hi) as (r & Hr & _).
  destruct (Forall2_lookup_r _ _ _ _ _ Hview Hj) as (r' & Hr' & _).
  pose proof (Repr_keyAt _ _ _ _ _ _ HR Hr Hi) as H1.
  pose proof (Repr_keyAt _ _ _ _ _ _ HR Hr' Hj) as H2.
  rewrite Hk in H1. rewrite Hk' in H2.
  assert (r = r') as -> by congruence.
  eapply NoDup_lookup; [apply Hch|done..].
Qed.

(** An indexed key: its node splits the list. *)
Lemma Repr_lookup_Some s l L k r :
  Repr s l L → hash s !! k = Some r →
  ∃ l1 l2 L1 e L2,
    l = l1 ++ r :: l2 ∧ L = L1 ++ e :: L2 ∧ length l1 = length L1 ∧
    ekey e = k ∧ dataAt (heap s) r = Some e.
Proof.
  intros (_ & [Hix _] & Hview) Hk.
  apply Hix in Hk as [Hin Hk].
  apply list_elem_of_split in Hin as (l1 & l2 & ->).
  apply Forall2_app_inv_l in Hview as (L1 & L2' & H1 & H2 & ->).
  apply Forall2_cons_inv_l in H2 as (e & L2 & He & H2 & ->).
  exists l1, l2, L1, e, L2. split_and!; try done.
  - by eapply Forall2_length.
  - rewrite keyAt_dataAt, He in Hk. by injection Hk.
Qed.

Lemma Repr_lookup_None s l L k :
  Repr s l L → hash s !! k = None → k ∉ ekey <$> L.
Proof.
  intros HR Hk Hin.
  apply list_elem_of_fmap in Hin as (e & -> & Hin).
  apply list_elem_of_lookup in Hin as [i Hi].
  pose proof HR as (_ & _ & Hview).
  destruct (Forall2_lookup_r _ _ _ _ _ Hview Hi) as (r & Hr & _).
  pose proof (Repr_keyAt _ _ _ _ _ _ HR Hr Hi). congruence.
Qed.

Lemma Repr_size s l L : Repr s l L → size (hash s) = length L.
Proof.
  intros (_ & [_ Hsz] & Hview). rewrite Hsz. by eapply Forall2_length.
Qed.

Lemma withHash_id s : withHash (hash s) s = s.
Proof. by destruct s. Qed.

Lemma cons_snoc {A} (x : A) (xs : list A) : ∃ ys y, x :: xs = ys ++ [y].
Proof.
  revert x. induction xs as [|a xs IH]; intros x.
  - by exists [], x.
  - destruct (IH a) as (ys & y & ->). by exists (x :: ys), y.
Qed.

(** The first step of [put], [get] and [getOption]: the node of the key,
    if there is one, is unlinked. *)
Lemma unlink_repr s l L k r :
  Repr s l L → hash s !! k = Some r →
  ∃ l', Repr (evict r s) l' (without k L) ∧ hash (evict r s) !! k = None.
Proof.
  intros HR Hk.
  destruct (Repr_lookup_Some _ _ _ _ _ HR Hk)
    as (l1 & l2 & L1 & e & L2 & -> & -> & Hlen & <- & He).
  exists (l1 ++ l2). split.
  - rewrite without_middle by (by eapply Repr_keys_NoDup).
    by eapply evict_repr.
  - rewrite (evict_hash s r (ekey e)).
    + apply lookup_delete_eq.
    + by rewrite keyAt_dataAt, He.
Qed.

Lemma evict_fields s r :
  capacity (evict r s) = capacity s ∧ hitCount (evict r s) = hitCount s ∧
  missCount (evict r s) = missCount s ∧
  evictionCount (evict r s) = evictionCount s.
Proof. done. Qed.

(** [put] is [putL]; it counts an eviction when the list was over the
    capacity. *)
Lemma put_abs s L now k (v : T) ttl :
  Abs s L →
  let s' := put now k v ttl s in
  Abs s' (putL (capacity s) (k, v, (now + ttl)%Z) L) ∧
  capacity s' = capacity s ∧ hitCount s' = hitCount s ∧
  missCount s' = missCount s ∧
  evictionCount s' =
    if (capacity s <? Z.of_nat (S (length (without k L))))%Z
    then S (evictionCount s) else evictionCount s.
Proof.
  intros [l HR]. unfold put.
  (* the node of the key is unlinked *)
  set (s1 := match hash s !! k with
             | Some node => evict node s
             | None => s
             end).
  assert (H1 : ∃ l1, Repr s1 l1 (without k L) ∧ hash s1 !! k = None ∧
            capacity s1 = capacity s ∧ hitCount s1 = hitCount s ∧
            missCount s1 = missCount s ∧
            evictionCount s1 = evictionCount s).
  { subst s1. destruct (hash s !! k) as [r|] eqn:Hk.
    - destruct (unlink_repr _ _ _ _ _ HR Hk) as (l1 & ? & ?).
      exists l1. by split_and!.
    - exists l. rewrite without_notin by (by eapply Repr_lookup_None).
      by split_and!. }
  destruct H1 as (l1 & HR1 & Hk1 & Hc1 & Hh1 & Hm1 & He1).
  clearbody s1.
  (* the new node goes first *)
  pose proof (prepend_repr s1 l1 _ k v (now + ttl)%Z HR1 Hk1) as HR2.
  destruct (prepend_fields s1 k v (now + ttl)%Z)
    as (Hnode & Hh2 & Hc2 & Hhi2 & Hm2 & He2).
  destruct (prepend k v (now + ttl)%Z s1) as [node s2].
  simpl in *. subst node.
  replace (<[k:=length (heap s1)]> (hash s2)) with (hash s2)
    by (by rewrite Hh2, insert_insert_eq).
  rewrite withHash_id, Hc2, Hc1.
  rewrite (Repr_size _ _ _ HR2). unfold putL. cbv zeta.
  change (ekey (k, v, (now + ttl)%Z)) with k. rewrite length_cons.
  destruct (capacity s <? _)%Z.
  - (* over the capacity: the tail goes *)
    destruct HR2 as (Hch2 & Hix2 & Hview2).
    destruct (cons_snoc (length (heap s1)) l1) as (l' & t & Hl).
    rewrite Hl in Hch2, Hix2, Hview2.
    apply Forall2_app_inv_l in Hview2 as (L' & Lt & HvL' & Hvt & HL).
    apply Forall2_cons_inv_l in Hvt as (et & Lt' & Het & Hnil & ->).
    apply Forall2_nil_inv_l in Hnil as ->.
    rewrite HL, removelast_last.
    destruct (pop_chain s2 l' t Hch2) as [Hpop Hch4].
    destruct (pop_fields s2) as (Hh4 & Hc4 & Hhi4 & Hm4 & He4).
    pose proof (pop_dataAt s2) as Hd4.
    assert (Hn : ∃ n, heap (pop s2).2 !! t = Some n ∧ data n = et).
    { rewrite <- Hd4 in Het. unfold dataAt in Het.
      destruct (heap (pop s2).2 !! t) as [n|]; [|done].
      exists n. split; [done|]. by injection Het. }
    destruct Hn as (n & Hn & Hdn).
    destruct (pop s2) as [tailNode s4]. simpl in *. subst tailNode.
    simpl. rewrite Hn.
    split_and!; simpl; try congruence.
    exists l'. split_and!.
    + by destruct Hch4.
    + simpl. rewrite Hh4, <- (app_nil_r l').
      eapply index_delete; [apply Hch2| |].
      * unfold keyAt. by rewrite Hn.
      * eapply index_frame; [|done]. intros.
        by rewrite !keyAt_dataAt, Hd4.
    + simpl. eapply view_frame; [|done]. intros. apply Hd4.
  - split_and!; try congruence. by eexists.
Qed.

Lemma Abs_miss s L : Abs s L → Abs (miss s) L.
Proof. intros [l HR]. exists l. by apply (Repr_ext s). Qed.

Lemma Abs_hit s L : Abs s L → Abs (hit s) L.
Proof. intros [l HR]. exists l. by apply (Repr_ext s). Qed.

Lemma Abs_clearMetrics s L : Abs s L → Abs (clearMetrics s) L.
Proof. intros [l HR]. exists l. by apply (Repr_ext s). Qed.

Lemma Repr_empty s :
  hash s = ∅ → head s = None → tail s = None → Repr s [] [].
Proof.
  intros Hh Hhd Htl. split_and!.
  - split; [constructor|done..].
  - split.
    + intros k r. rewrite Hh, lookup_empty, elem_of_nil.
      split; [done|by intros [? _]].
    + by rewrite Hh, map_size_empty.
  - constructor.
Qed.

Lemma constructor_abs cap : Abs (constructor (T:=T) cap) [].
Proof. exists []. by apply Repr_empty. Qed.

Lemma clear_abs s : Abs (clear s) [].
Proof. exists []. by apply Repr_empty. Qed.

Lemma clear_v1_abs s : Abs (clear_v1 s) [].
Proof. exists []. by apply Repr_empty. Qed.

(** What a lookup finds, and what unlinking the node found and putting a
    node of the same content first make of the list. *)
Lemma lookup_repr s l L k :
  Repr s l L →
  match lookup k s with
  | Some (r, n) =>
      hash s !! k = Some r ∧ findEntry k L = Some (data n) ∧
      ∃ n1, heap (evict r s) !! r = Some n1 ∧ data n1 = data n ∧
            Abs (evict r s) (without k L) ∧
            Abs (prepend (LinkedNode.key n1) (LinkedNode.value n1)
                   (LinkedNode.ttl n1) (evict r s)).2
              (data n :: without k L)
  | None => findEntry k L = None
  end.
Proof.
  intros HR. unfold lookup.
  destruct (hash s !! k) as [r|] eqn:Hk; simpl.
  - destruct (Repr_lookup_Some _ _ _ _ _ HR Hk)
      as (l1 & l2 & L1 & e & L2 & -> & -> & Hlen & <- & He).
    pose proof (Repr_keys_NoDup _ _ _ HR) as Hnd.
    pose proof He as He'. unfold dataAt in He'.
    destruct (heap s !! r) as [n|] eqn:Hn; [|done].
    injection He' as <-. simpl.
    split_and!; [done|by apply findEntry_middle|].
    pose proof (evict_dataAt s r r) as Hd. rewrite He in Hd.
    unfold dataAt in Hd.
    destruct (heap (evict r s) !! r) as [n1|] eqn:Hn1; [|done].
    apply (inj Some) in Hd. exists n1.
    destruct (unlink_repr _ _ _ _ _ HR Hk) as (l' & HR1 & Hk1).
    split_and!; [done|done|by exists l'|].
    eexists. rewrite <- Hd in HR1, Hk1 |- *.
    apply prepend_repr; [exact HR1|exact Hk1].
  - apply findEntry_notin. by eapply Repr_lookup_None.
Qed.

(** [get] is [getL]; it counts a hit or a miss. *)
Lemma get_abs s L now k :
  Abs s L →
  let r := getL now k L in
  let s' := (get now k s).2 in
  (get now k s).1 = r.1 ∧ Abs s' r.2 ∧
  capacity s' = capacity s ∧ evictionCount s' = evictionCount s ∧
  hitCount s' = (if r.1 is Some _ then S (hitCount s) else hitCount s) ∧
  missCount s' = (if r.1 is Some _ then missCount s else S (missCount s)).
Proof.
  intros HA. pose proof HA as [l HR].
  pose proof (lookup_repr _ _ _ k HR) as Hl.
  unfold get, getL.
  destruct (lookup k s) as [[r n]|].
  - destruct Hl as (Hk & -> & n1 & Hn1 & Hd & HA1 & HA2).
    change (ettl (data n)) with (LinkedNode.ttl n).
    destruct (LinkedNode.ttl n <? now)%Z.
    + simpl. split_and!; try done. by apply Abs_miss.
    + rewrite Hn1.
      destruct (prepend_fields (evict r s) (LinkedNode.key n1)
        (LinkedNode.value n1) (LinkedNode.ttl n1))
        as (_ & _ & Hc & Hh & Hm & He).
      destruct (prepend _ _ _ (evict r s)) as [node s2]. simpl in *.
      split_and!; try done.
      * by rewrite <- Hd.
      * by apply Abs_hit.
      * by rewrite Hh.
  - rewrite Hl. simpl. split_and!; try done. by apply Abs_miss.
Qed.

(** [getOption] is [get] with the result wrapped. *)
Lemma getOption_get s now k :
  getOption now k s = (wrapOption (get now k s).1, (get now k s).2).
Proof.
  unfold getOption, get.
  destruct (lookup k s) as [[r n]|]; [|done].
  destruct (LinkedNode.ttl n <? now)%Z; [done|].
  destruct (heap (evict r s) !! r) as [n1|]; [|done].
  by destruct (prepend _ _ _ (evict r s)).
Qed.

(** [get] of release 1.0.1 is [getL_v1]. *)
Lemma get_v1_abs s L now k :
  Abs s L →
  let r := getL_v1 now k L in
  let s' := (get_v1 now k s).2 in
  (get_v1 now k s).1 = r.1 ∧ Abs s' r.2 ∧
  capacity s' = capacity s ∧ evictionCount s' = evictionCount s ∧
  hitCount s' = (if r.1 is Some _ then S (hitCount s) else hitCount s) ∧
  missCount s' = (if r.1 is Some _ then missCount s else S (missCount s)).
Proof.
  intros HA. pose proof HA as [l HR].
  pose proof (lookup_repr _ _ _ k HR) as Hl.
  unfold get_v1, getL_v1.
  destruct (lookup k s) as [[r n]|].
  - destruct Hl as (Hk & -> & n1 & Hn1 & Hd & HA1 & HA2).
    change (ettl (data n)) with (LinkedNode.ttl n).
    rewrite Hn1.
    replace (LinkedNode.ttl n1) with (LinkedNode.ttl n)
      by (change (ettl (data n) = ettl (data n1)); by rewrite Hd).
    destruct (LinkedNode.ttl n <? now)%Z.
    + simpl. split_and!; try done. by apply Abs_miss.
    + destruct (prepend_fields (evict r s) (LinkedNode.key n1)
        (LinkedNode.value n1) (LinkedNode.ttl n))
        as (_ & _ & Hc & Hh & Hm & He).
      replace (LinkedNode.ttl n1) with (LinkedNode.ttl n) in HA2
        by (change (ettl (data n) = ettl (data n1)); by rewrite Hd).
      destruct (prepend _ _ _ (evict r s)) as [node s2]. simpl in *.
      split_and!; try done.
      * by rewrite <- Hd.
      * by apply Abs_hit.
      * by rewrite Hh.
  - rewrite Hl. simpl. split_and!; try done. by apply Abs_miss.
Qed.
End Refinement.

(** ** What the walks see *)

Section Walks.
Context {T : Type}.
Implicit Types (s : LRUCache T) (h : list (LinkedNode T))
  (l : list ref) (L : list (Entry T)) (r : ref).

Lemma walk_next_seg h p l fuel :
  dlseg h p l None → length l ≤ fuel →
  walk LinkedNode.next h fuel (hd_error l) = Some l.
Proof.
  revert p fuel. induction l as [|r l IH]; intros p fuel.
  - by destruct fuel.
  - intros (n & Hn & _ & Hnext & Hseg) Hlen. simpl in Hlen.
    destruct fuel as [|fuel]; [lia|]. simpl.
    rewrite Hn. simpl. rewrite Hnext, firstOr_None.
    rewrite (IH (Some r)); [done|done|lia].
Qed.

Lemma walk_prev_seg h l q fuel :
  dlseg h None l q → length l ≤ fuel →
  walk LinkedNode.prev h fuel (last l) = Some (reverse l).
Proof.
  revert q fuel. induction l as [|r l IH] using rev_ind; intros q fuel.
  - by destruct fuel.
  - rewrite dlseg_app, length_app. simpl.
    intros [Hseg (n & Hn & Hprev & _)] Hlen.
    destruct fuel as [|fuel]; [lia|].
    rewrite last_snoc, reverse_snoc. simpl.
    rewrite Hn. simpl. rewrite Hprev, lastOr_None.
    rewrite (IH (Some r)); [done|done|lia].
Qed.

Lemma Chain_length s l : Chain s l → length l ≤ length (heap s).
Proof.
  intros [Hnd Hseg _ _].
  assert (Hsub : l ⊆+ seq 0 (length (heap s))).
  { apply NoDup_submseteq; [done|].
    intros r Hin. apply elem_of_seq.
    apply (dlseg_lt _ _ _ _ _ Hseg) in Hin. lia. }
  apply submseteq_length in Hsub. by rewrite length_seq in Hsub.
Qed.

Lemma Chain_fromHead s l : Chain s l → fromHead s = Some l.
Proof.
  intros Hch. unfold fromHead. rewrite (chain_head _ _ Hch).
  eapply walk_next_seg; [apply Hch|by apply Chain_length].
Qed.

Lemma Chain_fromTail s l : Chain s l → fromTail s = Some (reverse l).
Proof.
  intros Hch. unfold fromTail. rewrite (chain_tail _ _ Hch).
  eapply walk_prev_seg; [apply Hch|by apply Chain_length].
Qed.

Lemma Chain_ends s l :
  Chain s l →
  head s ≫= prevOf (heap s) = None ∧ tail s ≫= nextOf (heap s) = None.
Proof.
  intros [_ Hseg Hhd Htl]. rewrite Hhd, Htl. split.
  - destruct l as [|r l]; [done|]. simpl.
    destruct Hseg as (n & Hn & Hprev & _). unfold prevOf. by rewrite Hn.
  - destruct l as [|r l _] using rev_ind; [done|].
    rewrite last_snoc. simpl.
    apply dlseg_app in Hseg as [_ (n & Hn & _ & Hnext & _)].
    unfold nextOf. by rewrite Hn.
Qed.

Lemma view_omap h l L : view h l L → omap (dataAt h) l = L.
Proof.
  induction 1 as [|r e l L He _ IH]; [done|].
  simpl. rewrite He. simpl. f_equal. exact IH.
Qed.

Lemma Repr_entries s l L : Repr s l L → entries s = L.
Proof.
  intros (Hch & _ & Hview). unfold entries.
  rewrite (Chain_fromHead _ _ Hch). by apply view_omap.
Qed.

Lemma Abs_entries s L : Abs s L → entries s = L.
Proof. intros [l HR]. by eapply Repr_entries. Qed.

Lemma Abs_size s L : Abs s L → size (hash s) = length L.
Proof. intros [l HR]. by eapply Repr_size. Qed.

(** A key is indexed exactly when the list has an entry of that key. *)
Lemma Abs_indexed s L k : Abs s L → is_Some (hash s !! k) ↔ k ∈ ekey <$> L.
Proof.
  intros [l HR]. split.
  - intros [r Hk].
    destruct (Repr_lookup_Some _ _ _ _ _ HR Hk)
      as (l1 & l2 & L1 & e & L2 & _ & -> & _ & <- & _).
    rewrite fmap_app, fmap_cons, elem_of_app. right. by left.
  - intros Hin. destruct (hash s !! k) eqn:Hk; [by eexists|].
    by apply (Repr_lookup_None _ _ _ _ HR) in Hk.
Qed.
End Walks.

(** ** Sequences of calls on the represented list *)

Section Runs.
Context {T : Type}.
Implicit Types (s : LRUCache T) (L : list (Entry T)) (c : Call T)
  (cs : list (Call T)).

Lemma call_abs s L c :
  Abs s L →
  Abs (call c s) (callL (capacity s) c L) ∧
  capacity (call c s) = capacity s.
Proof.
  intros HA. destruct c as [now k v ttl|now k|now k| | |now k|]; simpl.
  - destruct (put_abs _ _ now k v ttl HA) as (? & ? & _). done.
  - destruct (get_abs _ _ now k HA) as (_ & ? & ? & _). done.
  - rewrite getOption_get. simpl.
    destruct (get_abs _ _ now k HA) as (_ & ? & ? & _). done.
  - split; [apply clear_abs|done].
  - split; [by apply Abs_clearMetrics|done].
  - destruct (get_v1_abs _ _ now k HA) as (_ & ? & ? & _). done.
  - split; [apply clear_v1_abs|done].
Qed.

Lemma run_abs s L cs :
  Abs s L →
  Abs (run cs s) (runL (capacity s) cs L) ∧
  capacity (run cs s) = capacity s.
Proof.
  intros HA. induction cs as [|c cs IH] using rev_ind; [done|].
  unfold run, runL in *. rewrite !foldl_snoc.
  destruct IH as [IH Hcap].
  destruct (call_abs _ _ c IH) as [HA' Hcap']. rewrite Hcap in HA', Hcap'.
  by split.
Qed.

Lemma reachable_abs cap cs :
  let s := run cs (constructor cap) in
  Abs s (runL cap cs []) ∧ capacity s = cap.
Proof. apply (run_abs (constructor cap) []), constructor_abs. Qed.
End Runs.

(** ** Properties of the cache *)

Lemma Repr_Consistent {T} (s : LRUCache T) l L : Repr s l L → Consistent s l.
Proof.
  intros (Hch & [Hix Hsz] & _).
  destruct (Chain_ends _ _ Hch). split; try done.
  - by apply Chain_fromHead.
  - by apply Chain_fromTail.
  - apply Hch.
Qed.

(** C4: after every sequence of calls of the public methods ([put], [get],
    [getOption], [clear], [clearMetrics], and the [get] and [clear] of
    release 1.0.1) on a new cache, of any capacity, the index and the recency
    list are consistent: walking from the head by [next] ends and visits a
    list [l] of distinct nodes, walking from the tail by [prev] visits the
    same nodes in reverse order, the head has no [prev] and the tail no
    [next], and the index maps a key to a node exactly when the node is on
    the list and holds that key. *)
Theorem index_and_list_consistent {T} (cap : Z) (cs : list (Call T)) :
  ∃ l, Consistent (run cs (constructor cap)) l.
Proof.
  destruct (reachable_abs cap cs) as [[l HR] _].
  exists l. by eapply Repr_Consistent.
Qed.

(** C7: [clear()] of release 1.3.0 empties the index, unsets the head and
    the tail and resets the three counters, from every state; afterwards the
    cache has no entry and every key is absent for [get] and [getOption].
    [clear] is a total function: it has no error case.

    [clear()] of release 1.0.1 empties the index and unsets the head and the
    tail in the same way, and every key is absent afterwards, but it does not
    touch the counters.  On a cache of capacity 1, after
    [put(a); put(b); get(b); get(a)] the counters are one hit, one miss and
    one eviction; after [clear()] of release 1.0.1 they still are, where
    [clear()] of release 1.3.0 leaves three zeros.

    The test file relies on the reset: its test of the metrics makes two
    hits and one miss after the [clear()] of [beforeEach] and expects the
    rates 2/3 and 1/3.  With the methods of release 1.3.0 the counters are 2
    and 1 at that point; with those of release 1.0.1, which the test file
    imports, they are 7 and 7, the reads of the tests before included. *)
Theorem clear_resets_counters_in_1_3_0_only {T} (s : LRUCache T) :
  (let s' := clear s in
   hash s' = ∅ ∧ head s' = None ∧ tail s' = None ∧
   hitCount s' = 0 ∧ missCount s' = 0 ∧ evictionCount s' = 0 ∧
   entries s' = [] ∧
   ∀ now key, (get now key s').1 = None ∧ (getOption now key s').1 = none) ∧
  (let s' := clear_v1 s in
   hash s' = ∅ ∧ head s' = None ∧ tail s' = None ∧
   entries s' = [] ∧
   ∀ now key, (get_v1 now key s').1 = None) ∧
  (∀ va vb : T,
     let s0 := run [Put 0 "a" va 1000; Put 1 "b" vb 1000;
                    GetV1 2 "b"; GetV1 3 "a"] (constructor 1) in
     (hitCount s0, missCount s0, evictionCount s0) = (1, 1, 1) ∧
     (hitCount (clear_v1 s0), missCount (clear_v1 s0),
      evictionCount (clear_v1 s0)) = (1, 1, 1) ∧
     (hitCount (clear s0), missCount (clear s0),
      evictionCount (clear s0)) = (0, 0, 0)) ∧
  (let s13 := run (testCalls Clear Get) (constructor 3) in
   let s10 := run (testCalls ClearV1 GetV1) (constructor 3) in
   (hitCount s13, missCount s13) = (2, 1) ∧
   (hitCount s10, missCount s10) = (7, 7)).
Proof.
  split_and!.
  - simpl. split_and!; try done. apply Abs_entries, clear_abs.
  - simpl. split_and!; try done. apply Abs_entries, clear_v1_abs.
  - intros va vb. vm_compute. done.
  - vm_compute. done.
Qed.

(** C8: [getOption] is [get] with the result wrapped: both leave the cache
    in the same state, [getOption] returns [some v] exactly when [get]
    returns [v], and [none] exactly when [get] returns [undefined]. *)
Theorem getOption_wraps_get {T} (s : LRUCache T) (now : Z) (key : string) :
  (getOption now key s).2 = (get now key s).2 ∧
  (getOption now key s).1 = wrapOption (get now key s).1 ∧
  (∀ v, (getOption now key s).1 = some v ↔ (get now key s).1 = Some v) ∧
  ((getOption now key s).1 = none ↔ (get now key s).1 = None).
Proof.
  rewrite getOption_get. simpl. split_and!; try done.
  - intros v. destruct (get now key s).1; simpl; split; congruence.
  - destruct (get now key s).1; simpl; split; congruence.
Qed.

(** C9, as stated, fails: no capacity is rejected.  With no instance yet,
    [getInstance(-1)] constructs and returns a cache of capacity [-1]. *)
Lemma nonpositive_capacity_is_accepted :
  getInstance (T:=string) None (Some (-1)%Z)
    = (constructor (-1), Some (constructor (-1))) ∧
  (capacity (getInstance (T:=string) None (Some (-1)%Z)).1 ≤ 0)%Z.
Proof. split; [reflexivity|]. simpl. lia. Qed.

(** C9, amended: the constructor and [getInstance] check nothing.  With no
    instance yet, [getInstance] constructs, stores and returns an empty cache
    whose capacity is the number given (10 when none is given), whatever its
    sign; with an instance already there it returns that instance and
    ignores the number. *)
Theorem getInstance_accepts_any_capacity {T} (capacity' : option Z) :
  let c := constructor (T:=T) (default 10%Z capacity') in
  getInstance None capacity' = (c, Some c) ∧
  capacity c = default 10%Z capacity' ∧
  hash c = ∅ ∧ head c = None ∧ tail c = None ∧
  hitCount c = 0 ∧ missCount c = 0 ∧ evictionCount c = 0 ∧
  ∀ c0 : LRUCache T, getInstance (Some c0) capacity' = (c0, Some c0).
Proof. done. Qed.

Section Lookups.
Context {T : Type}.
Implicit Types (s : LRUCache T) (L : list (Entry T)) (k : string).

Lemma lookup_Some s k r (n : LinkedNode T) :
  lookup k s = Some (r, n) ↔ hash s !! k = Some r ∧ heap s !! r = Some n.
Proof.
  unfold lookup. destruct (hash s !! k) as [r'|]; simpl.
  - destruct (heap s !! r') as [n'|] eqn:Hn; simpl.
    + split; [by intros [= -> ->]|]. intros [[= ->] ?]. congruence.
    + split; [done|]. intros [[= ->] ?]. congruence.
  - split; [done|by intros [? _]].
Qed.

Lemma Abs_expiresAt s L k :
  Abs s L → expiresAt k s = ettl <$> findEntry k L.
Proof.
  intros [l HR]. pose proof (lookup_repr _ _ _ k HR) as Hl.
  unfold expiresAt. destruct (lookup k s) as [[r n]|].
  - destruct Hl as (_ & -> & _). done.
  - by rewrite Hl.
Qed.

Lemma getL_hit now k L (v : T) :
  (getL now k L).1 = Some v →
  ∃ e, findEntry k L = Some e ∧ ekey e = k ∧ evalue e = v ∧
       (now ≤ ettl e)%Z ∧ (getL now k L).2 = e :: without k L.
Proof.
  unfold getL. destruct (findEntry k L) as [e|] eqn:He; [|done].
  destruct (Z.ltb_spec (ettl e) now); [done|].
  simpl. intros [= <-]. exists e. split_and!; try done.
  by apply findEntry_Some in He as [_ ?].
Qed.

Lemma getL_live now k L e :
  findEntry k L = Some e → (now ≤ ettl e)%Z →
  getL now k L = (Some (evalue e), e :: without k L).
Proof.
  intros He ?. unfold getL. rewrite He.
  destruct (Z.ltb_spec (ettl e) now); [lia|done].
Qed.

Lemma getL_absent now k L :
  findEntry k L = None → getL now k L = (None, L).
Proof. intros He. unfold getL. by rewrite He. Qed.

Lemma get_expired s L now k e :
  Abs s L → findEntry k L = Some e → (ettl e < now)%Z →
  get now k s = (None, miss s).
Proof.
  intros [l HR] He Hexp. pose proof (lookup_repr _ _ _ k HR) as Hl.
  unfold get. destruct (lookup k s) as [[r n]|]; [|done].
  destruct Hl as (_ & Hf & _). rewrite He in Hf. injection Hf as ->.
  change (ettl (data n)) with (LinkedNode.ttl n) in Hexp.
  destruct (Z.ltb_spec (LinkedNode.ttl n) now); [done|lia].
Qed.

Lemma removelast_cons {A} (x y : A) (xs : list A) :
  removelast (x :: y :: xs) = x :: removelast (y :: xs).
Proof. done. Qed.

Lemma elem_of_removelast {A} (x : A) (xs : list A) :
  x ∈ removelast xs → x ∈ xs.
Proof.
  destruct xs as [|y xs _] using rev_ind; [done|].
  rewrite removelast_last, elem_of_app. by left.
Qed.

(** With room for one entry at least, the entry put is the first one. *)
Lemma putL_head cap (e : Entry T) L :
  (1 ≤ cap)%Z →
  ∃ L', putL cap e L = e :: L' ∧ (ekey e ∉ ekey <$> L') ∧
        (∀ x, x ∈ L' → x ∈ L).
Proof.
  intros Hcap. unfold putL. cbv zeta. rewrite length_cons.
  destruct (Z.ltb_spec cap (Z.of_nat (S (length (without (ekey e) L))))).
  - destruct (without (ekey e) L) as [|y W] eqn:HW.
    { simpl in *. lia. }
    rewrite removelast_cons. exists (removelast (y :: W)).
    split_and!; [done| |].
    + intros Hin. apply list_elem_of_fmap in Hin as (x & Hk & Hin).
      apply elem_of_removelast in Hin.
      rewrite <- HW in Hin. apply elem_of_without in Hin as [_ ?]. done.
    + intros x Hin%elem_of_removelast. rewrite <- HW in Hin.
      by apply elem_of_without in Hin as [? _].
  - exists (without (ekey e) L). split_and!; [done|..].
    + apply without_keys_notin.
    + intros x Hin. by apply elem_of_without in Hin as [? _].
Qed.

(** A hit puts the entry found first and leaves the others in order. *)
Lemma get_hit s L now k (v : T) :
  Abs s L → (get now k s).1 = Some v →
  ∃ e, findEntry k L = Some e ∧ ekey e = k ∧ evalue e = v ∧
       (now ≤ ettl e)%Z ∧ Abs (get now k s).2 (e :: without k L).
Proof.
  intros HA Hv. destruct (get_abs _ _ now k HA) as (Hres & HA' & _).
  rewrite Hres in Hv.
  destruct (getL_hit _ _ _ _ Hv) as (e & ? & ? & ? & ? & HL).
  rewrite HL in HA'. by exists e.
Qed.

(** On an entry that is not expired the [get] of release 1.0.1 is the [get]
    of release 1.3.0. *)
Lemma get_v1_live s now k r (n : LinkedNode T) :
  lookup k s = Some (r, n) → (now ≤ LinkedNode.ttl n)%Z →
  get_v1 now k s = get now k s.
Proof.
  intros Hl Hlive. unfold get_v1, get. rewrite Hl.
  apply lookup_Some in Hl as [_ Hn].
  pose proof (evict_dataAt s r r) as Hd. unfold dataAt in Hd.
  rewrite Hn in Hd.
  destruct (Z.ltb_spec (LinkedNode.ttl n) now); [lia|].
  destruct (heap (evict r s) !! r) as [n1|]; [|done].
  apply (inj Some) in Hd.
  assert (LinkedNode.ttl n1 = LinkedNode.ttl n) as ->
    by (change (ettl (data n1) = ettl (data n)); by rewrite Hd).
  by destruct (Z.ltb_spec (LinkedNode.ttl n) now); [lia|].
Qed.

(** On an expired entry the [get] of release 1.0.1 is a miss that takes the
    entry out. *)
Lemma get_v1_expired s L now k e :
  Abs s L → findEntry k L = Some e → (ettl e < now)%Z →
  let s' := (get_v1 now k s).2 in
  (get_v1 now k s).1 = None ∧ Abs s' (without k L) ∧
  hash s' !! k = None ∧
  missCount s' = S (missCount s) ∧ hitCount s' = hitCount s.
Proof.
  intros HA He Hexp s'.
  destruct (get_v1_abs _ _ now k HA) as (Hres & HA' & _ & _ & Hh & Hm).
  fold s' in HA', Hh, Hm.
  unfold getL_v1 in Hres, HA', Hh, Hm. rewrite He in Hres, HA', Hh, Hm.
  destruct (Z.ltb_spec (ettl e) now); [|lia].
  simpl in Hres, HA', Hh, Hm. split_and!; try done.
  destruct (hash s' !! k) eqn:Hk; [|done]. exfalso.
  apply (without_keys_notin k L), (Abs_indexed _ _ k HA'). eauto.
Qed.
End Lookups.

(** C5, as stated, fails on the [get] of release 1.0.1: the entry put at
    time 0 with 1000 ms to live is indexed and on the list, and a [get] at
    time 1100 takes it out of both. *)
Lemma get_v1_removes_expired_entry :
  let s := put 0 "k" 7 1000 (constructor 3) in
  lookup "k" s = Some (0, LinkedNode.Node "k" 7 1000 None None) ∧
  entries s = [("k", 7, 1000%Z)] ∧
  (get_v1 1100 "k" s).1 = None ∧
  lookup "k" (get_v1 1100 "k" s).2 = None ∧
  hash (get_v1 1100 "k" s).2 = ∅ ∧
  entries (get_v1 1100 "k" s).2 = [].
Proof. vm_compute. done. Qed.

(** C5, amended.  Release 1.3.0: for a key whose entry is present but expired
    ([ttl < now]), [get] and [getOption] return [undefined] and [none] and
    the only change to the cache is the miss counter, one higher: the index,
    the links, the head and the tail are as before, so the expired node
    stays indexed and linked.  For a present entry that is not expired both
    return its value; so after [put(key, value, 1000)] at time [t0] on a
    cache of capacity at least 1, a [get] at [t0 + 500] returns [value], and
    a following [get] at [t0 + 1100] is a miss.

    Release 1.0.1: on an entry that is not expired [get] does what the [get]
    of release 1.3.0 does.  On an expired entry, in a state reached by
    calls, it returns [undefined] and counts one miss as well, but it has
    unlinked the node before it looked at the expiry: the key is no longer
    indexed and the entry is no longer on the list, the other entries
    keeping their order.  So in the scenario above the [get] at [t0 + 500]
    returns [value] and the [get] at [t0 + 1100] is a miss that removes the
    entry. *)
Theorem expired_entry_is_a_miss {T} (s : LRUCache T) (now : Z) (key : string)
    (node : ref) (n : LinkedNode T) :
  lookup key s = Some (node, n) →
  ((LinkedNode.ttl n < now)%Z →
     get now key s = (None, miss s) ∧ getOption now key s = (none, miss s) ∧
     hash (miss s) = hash s ∧ heap (miss s) = heap s ∧
     head (miss s) = head s ∧ tail (miss s) = tail s ∧
     lookup key (miss s) = Some (node, n) ∧ entries (miss s) = entries s ∧
     missCount (miss s) = S (missCount s) ∧ hitCount (miss s) = hitCount s) ∧
  ((now ≤ LinkedNode.ttl n)%Z →
     (get now key s).1 = Some (LinkedNode.value n) ∧
     (getOption now key s).1 = some (LinkedNode.value n)) ∧
  (∀ cap cs t0 (value : T),
     (1 ≤ cap)%Z →
     let s1 := put t0 key value 1000 (run cs (constructor cap)) in
     let s2 := (get (t0 + 500) key s1).2 in
     (get (t0 + 500) key s1).1 = Some value ∧
     get (t0 + 1100) key s2 = (None, miss s2) ∧
     is_Some (hash (miss s2) !! key)) ∧
  ((now ≤ LinkedNode.ttl n)%Z →
     get_v1 now key s = get now key s ∧
     (get_v1 now key s).1 = Some (LinkedNode.value n)) ∧
  (∀ cap cs,
     s = run cs (constructor cap) → (LinkedNode.ttl n < now)%Z →
     let s' := (get_v1 now key s).2 in
     (get_v1 now key s).1 = None ∧
     missCount s' = S (missCount s) ∧ hitCount s' = hitCount s ∧
     findEntry key (entries s) = Some (data n) ∧
     hash s' !! key = None ∧ lookup key s' = None ∧
     findEntry key (entries s') = None ∧
     entries s' = without key (entries s)) ∧
  (∀ cap cs t0 (value : T),
     (1 ≤ cap)%Z →
     let s1 := put t0 key value 1000 (run cs (constructor cap)) in
     let s2 := (get_v1 (t0 + 500) key s1).2 in
     let s3 := (get_v1 (t0 + 1100) key s2).2 in
     (get_v1 (t0 + 500) key s1).1 = Some value ∧
     is_Some (hash s2 !! key) ∧
     (get_v1 (t0 + 1100) key s2).1 = None ∧
     hash s3 !! key = None ∧
     entries s3 = without key (entries s2)).
Proof.
  intros Hl.
  assert (Hlive13 : (now ≤ LinkedNode.ttl n)%Z →
            (get now key s).1 = Some (LinkedNode.value n)).
  { intros Hlive. unfold get. rewrite Hl.
    destruct (Z.ltb_spec (LinkedNode.ttl n) now); [lia|].
    pose proof (evict_dataAt s node node) as Hd. unfold dataAt in Hd.
    pose proof Hl as Hl'.
    apply lookup_Some in Hl' as [_ Hn]. rewrite Hn in Hd.
    destruct (heap (evict node s) !! node) as [n1|]; [|done].
    apply (inj Some) in Hd.
    destruct (prepend _ _ _ (evict node s)). simpl.
    change (Some (evalue (data n1)) = Some (evalue (data n))).
    by rewrite Hd. }
  assert (Hscen : ∀ cap cs t0 (v : T), (1 ≤ cap)%Z →
            let s1 := put t0 key v 1000 (run cs (constructor cap)) in
            let e := (key, v, (t0 + 1000)%Z) in
            ∃ L', Abs s1 (e :: L') ∧ key ∉ ekey <$> L').
  { intros cap cs t0 v Hcap s1 e.
    destruct (reachable_abs cap cs) as [HA0 Hc0].
    destruct (put_abs _ _ t0 key v 1000 HA0) as (HA1 & _).
    fold s1 in HA1. rewrite Hc0 in HA1.
    destruct (putL_head cap (key, v, (t0 + 1000)%Z)
                (runL cap cs []) Hcap) as (L' & HL' & Hk & _).
    rewrite HL' in HA1. by exists L'. }
  split_and!.
  - intros Hexp.
    assert (get now key s = (None, miss s)) as Hg.
    { unfold get. rewrite Hl.
      destruct (Z.ltb_spec (LinkedNode.ttl n) now); [done|lia]. }
    rewrite getOption_get, Hg. split_and!; try done.
  - intros Hlive. rewrite getOption_get. simpl.
    by rewrite (Hlive13 Hlive).
  - intros cap cs t0 v Hcap s1 s2.
    destruct (Hscen cap cs t0 v Hcap) as (L' & HA1 & Hk). fold s1 in HA1.
    destruct (get_abs _ _ (t0 + 500)%Z key HA1) as (Hres & HA2 & _).
    fold s2 in HA2.
    assert (Hw : without key ((key, v, (t0 + 1000)%Z) :: L') =
              without key L').
    { unfold without. by rewrite filter_cons_False by (simpl; tauto). }
    assert (Hg : getL (t0 + 500) key ((key, v, (t0 + 1000)%Z) :: L') =
              (Some v, (key, v, (t0 + 1000)%Z) :: without key L')).
    { rewrite <- Hw. apply (getL_live _ _ _ (key, v, (t0 + 1000)%Z)).
      - simpl. by rewrite decide_True.
      - simpl. lia. }
    rewrite Hg in Hres, HA2. simpl in Hres, HA2.
    rewrite (without_notin key L') in HA2 by done.
    split_and!; [done| |].
    + eapply get_expired; [done| |].
      * simpl. by rewrite decide_True.
      * simpl. lia.
    + apply (Abs_indexed _ _ key HA2). rewrite fmap_cons. by left.
  - intros Hlive. rewrite (get_v1_live _ _ _ _ _ Hl Hlive).
    split; [done|by apply Hlive13].
  - intros cap cs -> Hexp s'.
    destruct (reachable_abs cap cs) as [HA _].
    destruct HA as [l HR].
    pose proof (lookup_repr _ _ _ key HR) as Hf. rewrite Hl in Hf.
    destruct Hf as (_ & Hf & _).
    assert (HA : Abs (run cs (constructor cap)) (runL cap cs []))
      by (by exists l).
    destruct (get_v1_expired _ _ now key _ HA Hf Hexp)
      as (Hres & HA' & Hk & Hm & Hh).
    fold s' in HA', Hk, Hm, Hh.
    rewrite (Abs_entries _ _ HA), (Abs_entries _ _ HA').
    split_and!; try done.
    + unfold lookup. by rewrite Hk.
    + apply findEntry_notin, without_keys_notin.
  - intros cap cs t0 v Hcap s1 s2 s3.
    destruct (Hscen cap cs t0 v Hcap) as (L' & HA1 & Hk). fold s1 in HA1.
    destruct (get_v1_abs _ _ (t0 + 500)%Z key HA1) as (Hres & HA2 & _).
    fold s2 in HA2.
    assert (Hg : getL_v1 (t0 + 500) key ((key, v, (t0 + 1000)%Z) :: L') =
              (Some v, (key, v, (t0 + 1000)%Z) :: L')).
    { unfold getL_v1. simpl findEntry. rewrite decide_True by done.
      change (ettl (key, v, (t0 + 1000)%Z)) with (t0 + 1000)%Z.
      destruct (Z.ltb_spec (t0 + 1000) (t0 + 500)); [lia|].
      unfold without. rewrite filter_cons_False by (simpl; tauto).
      fold (without key L'). by rewrite (without_notin key L'). }
    rewrite Hg in Hres, HA2. simpl in Hres, HA2.
    assert (He : findEntry key ((key, v, (t0 + 1000)%Z) :: L') =
              Some (key, v, (t0 + 1000)%Z)).
    { simpl. by rewrite decide_True. }
    destruct (get_v1_expired _ _ (t0 + 1100)%Z key _ HA2 He
                ltac:(simpl; lia)) as (Hres3 & HA3 & Hk3 & _).
    fold s3 in HA3, Hk3.
    rewrite (Abs_entries _ _ HA2), (Abs_entries _ _ HA3).
    split_and!; try done.
    apply (Abs_indexed _ _ key HA2). rewrite fmap_cons. by left.
Qed.

(** ** Bounds on the list of entries *)

Section Bounds.
Context {T : Type}.
Implicit Types (s : LRUCache T) (L : list (Entry T)) (e : Entry T)
  (k : string).

Lemma without_length_lt k L :
  k ∈ ekey <$> L → length (without k L) < length L.
Proof.
  induction L as [|e L IH]; [by intros ?%elem_of_nil|].
  rewrite fmap_cons, elem_of_cons. unfold without in *. intros Hin.
  destruct (decide (ekey e = k)) as [Hk|Hk].
  - rewrite filter_cons_False by tauto. simpl.
    pose proof (length_filter (λ e, ekey e ≠ k) L). lia.
  - rewrite filter_cons_True by done. simpl.
    destruct Hin as [?|Hin]; [done|]. apply IH in Hin. lia.
Qed.

Lemma findEntry_elem L e :
  NoDup (ekey <$> L) → e ∈ L → findEntry (ekey e) L = Some e.
Proof.
  intros Hnd Hin. apply list_elem_of_split in Hin as (L1 & L2 & ->).
  by apply findEntry_middle.
Qed.

Lemma length_removelast {A} (xs : list A) :
  length (removelast xs) = pred (length xs).
Proof.
  destruct xs as [|x xs _] using rev_ind; [done|].
  rewrite removelast_last, length_app. simpl. lia.
Qed.

Lemma putL_length cap e L :
  (0 ≤ cap)%Z → (Z.of_nat (length L) ≤ cap)%Z →
  (Z.of_nat (length (putL cap e L)) ≤ cap)%Z.
Proof.
  intros ? ?. unfold putL. cbv zeta.
  pose proof (without_length (ekey e) L).
  destruct (Z.ltb_spec cap
              (Z.of_nat (length (e :: without (ekey e) L)))) as [Hlt|Hle].
  - rewrite length_removelast. simpl in *. lia.
  - done.
Qed.

Lemma getL_length now k L : length (getL now k L).2 ≤ length L.
Proof.
  unfold getL. destruct (findEntry k L) as [e|] eqn:He; [|done].
  destruct (ettl e <? now)%Z; [done|]. simpl.
  apply findEntry_Some in He as [Hin <-].
  apply Nat.le_succ_l, without_length_lt, list_elem_of_fmap. eauto.
Qed.

Lemma getL_v1_length now k L : length (getL_v1 now k L).2 ≤ length L.
Proof.
  unfold getL_v1. destruct (findEntry k L) as [e|] eqn:He; [|done].
  destruct (ettl e <? now)%Z; simpl.
  - apply without_length.
  - apply findEntry_Some in He as [Hin <-].
    apply Nat.le_succ_l, without_length_lt, list_elem_of_fmap. eauto.
Qed.

Lemma callL_length cap (c : Call T) L :
  (0 ≤ cap)%Z → (Z.of_nat (length L) ≤ cap)%Z →
  (Z.of_nat (length (callL cap c L)) ≤ cap)%Z.
Proof.
  intros ? ?. destruct c as [now k v ttl|now k|now k| | |now k|]; simpl.
  - by apply putL_length.
  - pose proof (getL_length now k L). lia.
  - pose proof (getL_length now k L). lia.
  - done.
  - done.
  - pose proof (getL_v1_length now k L). lia.
  - done.
Qed.

Lemma runL_length cap (cs : list (Call T)) :
  (0 ≤ cap)%Z → (Z.of_nat (length (runL cap cs [])) ≤ cap)%Z.
Proof.
  intros ?. induction cs as [|c cs IH] using rev_ind; [done|].
  unfold runL in *. rewrite foldl_snoc. by apply callL_length.
Qed.

Lemma Abs_keys_NoDup s L : Abs s L → NoDup (ekey <$> L).
Proof. intros [l HR]. by eapply Repr_keys_NoDup. Qed.
End Bounds.

(** C3: on a cache of capacity at least 1, after every sequence of calls
    (so after every [put]) the index holds no more entries than the capacity,
    and as many as the recency list.  A [put] goes over the capacity exactly
    when its key is not indexed and the cache is full; it then unlinks one
    entry, the last of the list (the tail), whose key leaves the index, and
    the eviction counter goes up by one.  Any other [put] leaves the counter
    as it is and only replaces the entry of its key. *)
Theorem put_respects_capacity {T} (cap : Z) (cs : list (Call T)) :
  (1 ≤ cap)%Z →
  let s := run cs (constructor cap) in
  (Z.of_nat (size (hash s)) ≤ cap)%Z ∧
  length (entries s) = size (hash s) ∧
  ∀ now key (value : T) ttl,
    let s' := put now key value ttl s in
    let e := (key, value, (now + ttl)%Z) in
    if decide (hash s !! key = None ∧ Z.of_nat (size (hash s)) = cap)
    then entries s' = e :: removelast (entries s) ∧
         evictionCount s' = S (evictionCount s) ∧
         size (hash s') = size (hash s) ∧
         (∀ t, last (entries s) = Some t → hash s' !! ekey t = None)
    else entries s' = e :: without key (entries s) ∧
         evictionCount s' = evictionCount s.
Proof.
  intros Hcap s. destruct (reachable_abs cap cs) as [HA Hc]. fold s in HA, Hc.
  pose proof (runL_length cap cs ltac:(lia)) as Hlen.
  pose proof (Abs_keys_NoDup _ _ HA) as Hnd.
  rewrite (Abs_entries _ _ HA), (Abs_size _ _ HA).
  set (L := runL cap cs []) in *. split_and!; [done..|].
  intros now k v ttl s' e.
  destruct (put_abs _ _ now k v ttl HA) as (HA' & _ & _ & _ & Hev).
  fold s' in HA', Hev. rewrite Hc in HA', Hev.
  unfold putL in HA'. cbv zeta in HA'.
  change (ekey (k, v, (now + ttl)%Z)) with k in HA'.
  rewrite length_cons in HA'. rewrite Hev.
  case_decide as Hover.
  - destruct Hover as [Hk Hfull].
    assert (Hnot : k ∉ ekey <$> L).
    { intros Hin. apply (Abs_indexed _ _ k HA) in Hin as [? ?]. congruence. }
    rewrite without_notin in HA' |- * by done.
    destruct (Z.ltb_spec cap (Z.of_nat (S (length L)))); [|lia].
    destruct (last L) as [t|] eqn:Ht;
      [|apply last_None in Ht; rewrite Ht in Hfull; simpl in Hfull; lia].
    apply last_Some in Ht as [L1 HL1].
    assert (HrL : removelast ((k, v, (now + ttl)%Z) :: L)
                  = (k, v, (now + ttl)%Z) :: L1).
    { by rewrite HL1, app_comm_cons, removelast_last. }
    rewrite HrL in HA'.
    rewrite (Abs_entries _ _ HA'), (Abs_size _ _ HA').
    rewrite HL1, removelast_last.
    split_and!; try done.
    + rewrite length_app. simpl. lia.
    + intros t' Ht'. injection Ht' as <-.
      destruct (hash s' !! ekey t) eqn:Hs'; [|done]. exfalso.
      assert (Hin : ekey t ∈ ekey <$> (k, v, (now + ttl)%Z) :: L1)
        by (apply (Abs_indexed _ _ _ HA'); eauto).
      rewrite HL1, fmap_app in Hnd, Hnot.
      apply NoDup_app in Hnd as (_ & Hdisj & _).
      rewrite fmap_cons in Hin. apply elem_of_cons in Hin as [Heq|Hin].
      * apply Hnot. change (ekey t = k) in Heq.
        rewrite <- Heq, elem_of_app. right. by left.
      * eapply Hdisj; [done|]. by left.
  - assert (Hroom : (Z.of_nat (S (length (without k L))) ≤ cap)%Z).
    { destruct (hash s !! k) as [r|] eqn:Hk.
      - assert (k ∈ ekey <$> L) as Hin
          by (apply (Abs_indexed _ _ k HA); eauto).
        apply without_length_lt in Hin. lia.
      - assert (Z.of_nat (length L) ≠ cap) by tauto.
        pose proof (without_length k L). lia. }
    destruct (Z.ltb_spec cap (Z.of_nat (S (length (without k L))))); [lia|].
    by rewrite (Abs_entries _ _ HA').
Qed.

Section PutFacts.
Context {T : Type}.
Implicit Types (s : LRUCache T) (L : list (Entry T)) (e : Entry T)
  (k : string).

(** A [put] with room left: nothing goes. *)
Lemma putL_room cap e L :
  (Z.of_nat (S (length (without (ekey e) L))) ≤ cap)%Z →
  putL cap e L = e :: without (ekey e) L.
Proof.
  intros ?. unfold putL. cbv zeta. rewrite length_cons.
  by destruct (Z.ltb_spec cap
                 (Z.of_nat (S (length (without (ekey e) L))))); [lia|].
Qed.

(** A [put] of a new key on a full list: the last entry goes. *)
Lemma putL_full cap e L :
  ekey e ∉ ekey <$> L → Z.of_nat (length L) = cap → L ≠ [] →
  putL cap e L = e :: removelast L.
Proof.
  intros Hk Hfull HL. unfold putL. cbv zeta.
  rewrite without_notin, length_cons by done.
  destruct (Z.ltb_spec cap (Z.of_nat (S (length L)))); [|lia].
  destruct L as [|e0 L]; [done|]. apply removelast_cons.
Qed.

(** A [put] of an indexed key in a cache within its capacity replaces the
    entry and counts no eviction. *)
Lemma put_present s L now k (v : T) ttl :
  Abs s L → (Z.of_nat (length L) ≤ capacity s)%Z → k ∈ ekey <$> L →
  Abs (put now k v ttl s) ((k, v, (now + ttl)%Z) :: without k L) ∧
  evictionCount (put now k v ttl s) = evictionCount s.
Proof.
  intros HA Hlen Hin.
  destruct (put_abs _ _ now k v ttl HA) as (HA' & _ & _ & _ & Hev).
  apply without_length_lt in Hin.
  rewrite putL_room in HA'
    by (change (ekey (k, v, (now + ttl)%Z)) with k; lia).
  rewrite Hev.
  by destruct (Z.ltb_spec (capacity s)
                 (Z.of_nat (S (length (without k L))))); [lia|].
Qed.
End PutFacts.

(** C6: on a cache of capacity at least 1, in any state reached by calls,
    [put(key, v1)] followed by [put(key, v2)] leaves [v2] for [get(key)] (as
    long as the second entry is not expired), as many entries as after the
    first [put], one entry only of that key, and the eviction counter as
    the first [put] left it. *)
Theorem put_twice_replaces {T} (cap : Z) (cs : list (Call T)) (key : string)
    (v1 v2 : T) (t1 ttl1 t2 ttl2 : Z) :
  (1 ≤ cap)%Z →
  let s1 := put t1 key v1 ttl1 (run cs (constructor cap)) in
  let s2 := put t2 key v2 ttl2 s1 in
  (∀ now, (now ≤ t2 + ttl2)%Z → (get now key s2).1 = Some v2) ∧
  size (hash s2) = size (hash s1) ∧
  length (entries s2) = length (entries s1) ∧
  entries s2 = (key, v2, (t2 + ttl2)%Z) :: without key (entries s1) ∧
  NoDup (ekey <$> entries s2) ∧
  evictionCount s2 = evictionCount s1.
Proof.
  intros Hcap s1 s2.
  destruct (reachable_abs cap cs) as [HA Hc].
  pose proof (runL_length cap cs ltac:(lia)) as Hlen.
  destruct (put_abs _ _ t1 key v1 ttl1 HA) as (HA1 & Hc1 & _).
  fold s1 in HA1, Hc1. rewrite Hc in HA1, Hc1.
  pose proof (putL_length cap (key, v1, (t1 + ttl1)%Z) _ ltac:(lia) Hlen)
    as Hlen1.
  destruct (putL_head cap (key, v1, (t1 + ttl1)%Z) (runL cap cs []) Hcap)
    as (L' & HL' & Hk & _).
  rewrite HL' in HA1, Hlen1. clear HL'. simpl in Hk.
  assert (Hin : key ∈ ekey <$> (key, v1, (t1 + ttl1)%Z) :: L')
    by (rewrite fmap_cons; by left).
  rewrite <- Hc1 in Hlen1.
  destruct (put_present _ _ t2 key v2 ttl2 HA1 Hlen1 Hin) as [HA2 Hev].
  fold s2 in HA2, Hev.
  assert (Hw : without key ((key, v1, (t1 + ttl1)%Z) :: L') = L').
  { unfold without. rewrite filter_cons_False by (simpl; tauto).
    by apply without_notin. }
  rewrite (Abs_entries _ _ HA1), (Abs_entries _ _ HA2).
  rewrite (Abs_size _ _ HA1), (Abs_size _ _ HA2).
  pose proof (Abs_keys_NoDup _ _ HA2) as Hnd.
  rewrite Hw in *. split_and!; try done.
  intros now Hnow.
  destruct (get_abs _ _ now key HA2) as (-> & _).
  rewrite (getL_live _ _ _ (key, v2, (t2 + ttl2)%Z)); [done| |done].
  simpl. by rewrite decide_True.
Qed.

(** C10: in any state reached by calls, a [get] that hits leaves the expiry
    timestamp of the key as it was, and so does [getOption] (it returns
    [some] of the same value and leaves the same state): the entry now first
    in the list is the entry that was found, timestamp included.  A hit
    therefore never extends the time an entry has left. *)
Theorem hit_keeps_expiry {T} (cap : Z) (cs : list (Call T)) (now : Z)
    (key : string) (v : T) :
  let s := run cs (constructor cap) in
  (get now key s).1 = Some v →
  (getOption now key s).1 = some v ∧
  expiresAt key (get now key s).2 = expiresAt key s ∧
  expiresAt key (getOption now key s).2 = expiresAt key s ∧
  is_Some (expiresAt key s) ∧
  hd_error (entries (get now key s).2) = findEntry key (entries s).
Proof.
  intros s Hv. destruct (reachable_abs cap cs) as [HA _]. fold s in HA.
  destruct (get_hit _ _ _ _ _ HA Hv) as (e & He & Hk & _ & _ & HA').
  rewrite getOption_get, Hv. simpl.
  rewrite (Abs_expiresAt _ _ key HA), (Abs_expiresAt _ _ key HA').
  rewrite (Abs_entries _ _ HA), (Abs_entries _ _ HA'), He.
  simpl. rewrite decide_True by done. by split_and!.
Qed.

Section Scenarios.
Context {T : Type}.
Implicit Types (L : list (Entry T)) (e : Entry T) (k : string).

Lemma without_nil k : without k ([] : list (Entry T)) = [].
Proof. done. Qed.

Lemma without_cons_ne k e L :
  ekey e ≠ k → without k (e :: L) = e :: without k L.
Proof. intros ?. unfold without. by rewrite filter_cons_True. Qed.

Lemma without_cons_eq k e L : ekey e = k → without k (e :: L) = without k L.
Proof. intros ?. unfold without. by rewrite filter_cons_False by tauto. Qed.

Lemma get_absent (s : LRUCache T) L now k :
  Abs s L → k ∉ ekey <$> L → (get now k s).1 = None.
Proof.
  intros HA Hk. destruct (get_abs _ _ now k HA) as (-> & _).
  by rewrite getL_absent by (by apply findEntry_notin).
Qed.

Lemma get_live (s : LRUCache T) L now e :
  Abs s L → e ∈ L → (now ≤ ettl e)%Z →
  (get now (ekey e) s).1 = Some (evalue e).
Proof.
  intros HA Hin Hnow. destruct (get_abs _ _ now (ekey e) HA) as (-> & _).
  rewrite (getL_live _ _ _ e); [done| |done].
  apply findEntry_elem; [|done]. by eapply Abs_keys_NoDup.
Qed.
End Scenarios.

(** C2: a [get] that hits moves the entry found to the head of the recency
    list and leaves the other entries in their order, in any state reached
    by calls.  So recency follows use: with capacity 3 and four distinct
    keys, after [put(a)], [put(b)], [put(c)], a [get(a)] that hits, and
    [put(d)], the entry evicted is the one of [b]: [b] is absent, [a] is
    still indexed, and [get(a)] returns its value as long as it is not
    expired. *)
Theorem get_promotes_to_head {T} (a b c d : string) (va vb vc vd : T)
    (ta la tb lb tc lc tg td ld : Z) :
  NoDup [a; b; c; d] → (tg ≤ ta + la)%Z →
  let s := run [Put ta a va la; Put tb b vb lb; Put tc c vc lc;
                Get tg a; Put td d vd ld] (constructor 3) in
  (hash s !! b = None ∧ (∀ now, (get now b s).1 = None) ∧
   is_Some (hash s !! a) ∧
   (∀ now, (now ≤ ta + la)%Z → (get now a s).1 = Some va) ∧
   entries s = [(d, vd, (td + ld)%Z); (a, va, (ta + la)%Z);
                (c, vc, (tc + lc)%Z)]) ∧
  (∀ cap (cs : list (Call T)) now key v,
     let s0 := run cs (constructor cap) in
     (get now key s0).1 = Some v →
     ∃ e, findEntry key (entries s0) = Some e ∧ ekey e = key ∧
          evalue e = v ∧
          entries (get now key s0).2 = e :: without key (entries s0)).
Proof.
  intros Hnd Hlive s. split.
  - assert (Hne : a ≠ b ∧ a ≠ c ∧ a ≠ d ∧ b ≠ c ∧ b ≠ d ∧ c ≠ d).
    { rewrite !NoDup_cons, !not_elem_of_cons in Hnd. tauto. }
    destruct Hne as (? & ? & ? & ? & ? & ?).
    destruct (reachable_abs 3
                [Put ta a va la; Put tb b vb lb; Put tc c vc lc;
                 Get tg a; Put td d vd ld]) as [HA _].
    fold s in HA.
    assert (HL : runL 3 [Put ta a va la; Put tb b vb lb; Put tc c vc lc;
                         Get tg a; Put td d vd ld] []
                 = [(d, vd, (td + ld)%Z); (a, va, (ta + la)%Z);
                    (c, vc, (tc + lc)%Z)]).
    { unfold runL. simpl foldl. unfold callL.
      rewrite (putL_room 3 (a, va, _) []) by (simpl; lia).
      rewrite without_nil.
      rewrite (putL_room 3 (b, vb, _))
        by (rewrite without_cons_ne by done; simpl; lia).
      rewrite without_cons_ne, without_nil by done.
      rewrite (putL_room 3 (c, vc, _))
        by (rewrite !without_cons_ne by done; simpl; lia).
      rewrite !without_cons_ne, without_nil by done.
      rewrite (getL_live tg a _ (a, va, (ta + la)%Z));
        [|simpl; rewrite !decide_False, decide_True by done; done|done].
      simpl snd.
      rewrite !without_cons_ne, without_cons_eq, without_nil by done.
      rewrite putL_full; [done| |done|done].
      simpl. rewrite !not_elem_of_cons. split_and!; try done.
      apply not_elem_of_nil. }
    rewrite HL in HA. clear HL.
    assert (Hb : b ∉ ekey <$> [(d, vd, (td + ld)%Z); (a, va, (ta + la)%Z);
                               (c, vc, (tc + lc)%Z)]).
    { simpl. rewrite !not_elem_of_cons. split_and!; try done.
      apply not_elem_of_nil. }
    split_and!.
    + destruct (hash s !! b) eqn:Hk; [|done].
      exfalso. apply Hb, (Abs_indexed _ _ b HA). eauto.
    + intros now. by eapply get_absent.
    + apply (Abs_indexed _ _ a HA). simpl. right. by left.
    + intros now Hnow.
      apply (get_live s _ now (a, va, (ta + la)%Z) HA); [|done].
      right. by left.
    + by apply Abs_entries.
  - intros cap cs now key v s0 Hv.
    destruct (reachable_abs cap cs) as [HA _]. fold s0 in HA.
    destruct (get_hit _ _ _ _ _ HA Hv) as (e & He & Hk & Hval & _ & HA').
    exists e. by rewrite (Abs_entries _ _ HA), (Abs_entries _ _ HA').
Qed.

Section PutSequences.
Context {T : Type}.
Implicit Types (p : Z * string * T * Z) (ps : list (Z * string * T * Z)).

Lemma ekey_putEntry p : ekey (putEntry p) = putKey p.
Proof. by destruct p as [[[now k] v] ttl]. Qed.

Lemma callL_putCall cap p (L : list (Entry T)) :
  callL cap (putCall p) L = putL cap (putEntry p) L.
Proof. by destruct p as [[[now k] v] ttl]. Qed.

(** Puts of distinct keys on a new cache: the list holds the entries of
    the last [cap] calls, the latest first. *)
Lemma runL_puts cap ps :
  (0 ≤ cap)%Z → NoDup (putKey <$> ps) →
  runL cap (putCall <$> ps) []
    = take (Z.to_nat cap) (reverse (putEntry <$> ps)).
Proof.
  intros Hcap. induction ps as [|p ps IH] using rev_ind; intros Hnd.
  - simpl. by destruct (Z.to_nat cap).
  - rewrite !fmap_app in *. simpl in *.
    apply NoDup_app in Hnd as (Hnd & Hdisj & _).
    unfold runL in *. rewrite foldl_snoc, IH by done. clear IH.
    rewrite callL_putCall, reverse_snoc.
    set (R := reverse (putEntry <$> ps)).
    set (n := Z.to_nat cap).
    assert (Hk : ekey (putEntry p) ∉ ekey <$> take n R).
    { intros Hin. apply list_elem_of_fmap in Hin as (e & He & Hin).
      apply elem_of_take in Hin as (i & Hin%list_elem_of_lookup_2 & _).
      subst R. rewrite elem_of_reverse in Hin.
      apply list_elem_of_fmap in Hin as (p' & -> & Hin).
      rewrite !ekey_putEntry in He.
      eapply (Hdisj (putKey p')).
      - apply list_elem_of_fmap. eauto.
      - rewrite <- He. by left. }
    unfold putL. cbv zeta. rewrite without_notin, length_cons by done.
    rewrite length_take.
    destruct (Z.ltb_spec cap (Z.of_nat (S (n `min` length R)))).
    + change (putEntry p :: take n R) with (take (S n) (putEntry p :: R)).
      apply removelast_firstn. simpl. lia.
    + rewrite (take_ge R), (take_ge (_ :: R)); [done|simpl; lia|lia].
Qed.
End PutSequences.

(** C1: on a new cache of capacity [cap], at least 1, after [cap + 1] calls
    of [put] with distinct keys (and no other call) the key of the first
    call is absent (it is not indexed and [get] returns [undefined]), while
    the key of every later call is indexed and [get] returns its value, as
    long as the entry is not expired; the list holds the entries of the
    later calls, the latest first. *)
Theorem lru_evicts_first_put {T} (cap : Z) (puts : list (Z * string * T * Z)) :
  (1 ≤ cap)%Z → Z.of_nat (length puts) = (cap + 1)%Z →
  NoDup (putKey <$> puts) →
  let s := run (putCall <$> puts) (constructor cap) in
  entries s = reverse (putEntry <$> drop 1 puts) ∧
  ∀ i now key value ttl,
    puts !! i = Some (now, key, value, ttl) →
    if decide (i = 0)
    then hash s !! key = None ∧ ∀ now', (get now' key s).1 = None
    else is_Some (hash s !! key) ∧
         ∀ now', (now' ≤ now + ttl)%Z → (get now' key s).1 = Some value.
Proof.
  intros Hcap Hlen Hnd s.
  destruct (reachable_abs cap (putCall <$> puts)) as [HA _]. fold s in HA.
  rewrite runL_puts in HA by (done || lia).
  destruct puts as [|p1 rest]; [simpl in Hlen; lia|].
  simpl in Hlen. rewrite fmap_cons, reverse_cons in HA.
  rewrite take_app_length' in HA
    by (rewrite length_reverse, length_fmap; lia).
  rewrite fmap_cons in Hnd. apply NoDup_cons in Hnd as [Hk1 Hnd].
  split; [by apply Abs_entries|].
  intros i now k v ttl Hi. case_decide as Hi0.
  - subst i. simpl in Hi. injection Hi as ->. simpl in Hk1.
    assert (Hnot : k ∉ ekey <$> reverse (putEntry <$> rest)).
    { intros Hin. apply list_elem_of_fmap in Hin as (e & -> & Hin).
      rewrite elem_of_reverse in Hin.
      apply list_elem_of_fmap in Hin as (p & -> & Hin).
      apply Hk1. rewrite ekey_putEntry. apply list_elem_of_fmap.
      exists p. by split. }
    split.
    + destruct (hash s !! k) eqn:Hk; [|done].
      exfalso. apply Hnot, (Abs_indexed _ _ k HA). eauto.
    + intros now'. by eapply get_absent.
  - destruct i as [|j]; [done|]. simpl in Hi.
    assert (Hin : (k, v, (now + ttl)%Z) ∈ reverse (putEntry <$> rest)).
    { apply elem_of_reverse, list_elem_of_fmap.
      exists (now, k, v, ttl). split; [done|].
      by eapply list_elem_of_lookup_2. }
    split.
    + apply (Abs_indexed _ _ k HA), list_elem_of_fmap.
      exists (k, v, (now + ttl)%Z). by split.
    + intros now' Hnow.
      by apply (get_live s _ now' (k, v, (now + ttl)%Z) HA).
Qed.

(** ** Release 1.0.1 *)

(** X1: [get] of release 1.0.1 unlinks the node before it looks at the expiry:
    for a key whose entry is present but expired it returns [undefined],
    counts a miss, and the entry is gone from the index and from the list
    (the other entries keep their order). *)
Theorem get_v1_drops_expired_entry {T} (cap : Z) (cs : list (Call T))
    (now : Z) (key : string) (node : ref) (n : LinkedNode T) :
  let s := run cs (constructor cap) in
  lookup key s = Some (node, n) → (LinkedNode.ttl n < now)%Z →
  let s' := (get_v1 now key s).2 in
  (get_v1 now key s).1 = None ∧ hash s' !! key = None ∧
  entries s' = without key (entries s) ∧
  missCount s' = S (missCount s) ∧ hitCount s' = hitCount s.
Proof.
  intros s Hl Hexp s'.
  destruct (reachable_abs cap cs) as [[l HR] _]. fold s in HR.
  assert (HA : Abs s (runL cap cs [])) by (by exists l).
  pose proof (lookup_repr _ _ _ key HR) as Hf. rewrite Hl in Hf.
  destruct Hf as (_ & Hf & _).
  destruct (get_v1_abs _ _ now key HA) as (Hres & HA' & _ & _ & Hh & Hm).
  fold s' in HA', Hh, Hm.
  unfold getL_v1 in Hres, HA', Hh, Hm. rewrite Hf in Hres, HA', Hh, Hm.
  change (ettl (data n)) with (LinkedNode.ttl n) in Hres, HA', Hh, Hm.
  destruct (Z.ltb_spec (LinkedNode.ttl n) now); [|lia].
  simpl in Hres, HA', Hh, Hm.
  rewrite (Abs_entries _ _ HA), (Abs_entries _ _ HA').
  split_and!; try done.
  destruct (hash s' !! key) eqn:Hk; [|done]. exfalso.
  apply (without_keys_notin key (runL cap cs [])).
  apply (Abs_indexed _ _ key HA'). eauto.
Qed.

Section Resets.
Context {T : Type}.
Implicit Types (s : LRUCache T) (L : list (Entry T)) (c : Call T)
  (cs : list (Call T)).

Lemma call_resets s c :
  resetsMetrics c = true →
  hitCount (call c s) = 0 ∧ missCount (call c s) = 0 ∧
  evictionCount (call c s) = 0.
Proof. by destruct c. Qed.

(** A call that does not reset the counters adds the same to the counters of
    two caches of the same capacity that hold the same entries. *)
Lemma call_counters s s' L c :
  Abs s L → Abs s' L → capacity s = capacity s' →
  resetsMetrics c = false →
  hitCount (call c s) + hitCount s' = hitCount (call c s') + hitCount s ∧
  missCount (call c s) + missCount s' = missCount (call c s') + missCount s ∧
  evictionCount (call c s) + evictionCount s' =
    evictionCount (call c s') + evictionCount s.
Proof.
  intros HA HA' Hcap Hr.
  destruct c as [now k v ttl|now k|now k| | |now k|]; simpl; try done.
  - destruct (put_abs _ _ now k v ttl HA) as (_ & _ & -> & -> & ->).
    destruct (put_abs _ _ now k v ttl HA') as (_ & _ & -> & -> & ->).
    rewrite Hcap. destruct (_ <? _)%Z; lia.
  - destruct (get_abs _ _ now k HA) as (_ & _ & _ & -> & -> & ->).
    destruct (get_abs _ _ now k HA') as (_ & _ & _ & -> & -> & ->).
    destruct (getL now k L).1; lia.
  - rewrite !getOption_get. simpl.
    destruct (get_abs _ _ now k HA) as (_ & _ & _ & -> & -> & ->).
    destruct (get_abs _ _ now k HA') as (_ & _ & _ & -> & -> & ->).
    destruct (getL now k L).1; lia.
  - destruct (get_v1_abs _ _ now k HA) as (_ & _ & _ & -> & -> & ->).
    destruct (get_v1_abs _ _ now k HA') as (_ & _ & _ & -> & -> & ->).
    destruct (getL_v1 now k L).1; lia.
  - lia.
Qed.

(** The counters after calls on a cache left by [clear] of release 1.0.1 and
    on a new cache of the same capacity. *)
Lemma run_counters_clear_v1 s cs :
  let s' := run cs (clear_v1 s) in
  let new := run cs (constructor (capacity s)) in
  let kept (n : nat) := if existsb resetsMetrics cs then 0 else n in
  hitCount s' = kept (hitCount s) + hitCount new ∧
  missCount s' = kept (missCount s) + missCount new ∧
  evictionCount s' = kept (evictionCount s) + evictionCount new.
Proof.
  cbv zeta. induction cs as [|c cs IH] using rev_ind; [done|].
  destruct (run_abs (clear_v1 s) [] cs (clear_v1_abs s)) as [HA1 Hc1].
  destruct (run_abs (constructor (capacity s)) [] cs (constructor_abs _))
    as [HA2 Hc2].
  change (capacity (clear_v1 s)) with (capacity s) in HA1, Hc1.
  change (capacity (constructor (capacity s))) with (capacity s) in HA2, Hc2.
  rewrite existsb_app. unfold run in *. rewrite !foldl_snoc.
  simpl existsb. rewrite orb_false_r.
  destruct (resetsMetrics c) eqn:Hr.
  - rewrite orb_true_r.
    destruct (call_resets (foldl (λ s c, call c s) (clear_v1 s) cs) c Hr)
      as (-> & -> & ->).
    destruct (call_resets
                (foldl (λ s c, call c s) (constructor (capacity s)) cs) c Hr)
      as (-> & -> & ->).
    done.
  - rewrite orb_false_r.
    destruct (call_counters _ _ _ c HA1 HA2 ltac:(congruence) Hr)
      as (Hh & Hm & He).
    destruct IH as (IHh & IHm & IHe).
    destruct (existsb resetsMetrics cs); lia.
Qed.
End Resets.

(** X2: [clear] of release 1.0.1 leaves a cache that, after any calls, holds
    the entries and returns the values a new cache of the same capacity
    holds and returns after the same calls, while each of its three counters
    is the counter of that new cache plus what the counter was when [clear]
    was called; the old counts are carried until [clearMetrics] (or [clear]
    of release 1.3.0) is called.  So a hit rate read after [clear] of release
    1.0.1 counts the reads made before it. *)
Theorem clear_v1_carries_counters_over {T} (s : LRUCache T)
    (cs : list (Call T)) :
  let s' := run cs (clear_v1 s) in
  let new := run cs (constructor (capacity s)) in
  let kept (n : nat) := if existsb resetsMetrics cs then 0 else n in
  entries s' = entries new ∧
  (∀ now key, (get_v1 now key s').1 = (get_v1 now key new).1 ∧
              (get now key s').1 = (get now key new).1) ∧
  hitCount s' = kept (hitCount s) + hitCount new ∧
  missCount s' = kept (missCount s) + missCount new ∧
  evictionCount s' = kept (evictionCount s) + evictionCount new.
Proof.
  intros s' new kept.
  destruct (run_abs (clear_v1 s) [] cs (clear_v1_abs s)) as [HA1 _].
  destruct (run_abs (constructor (capacity s)) [] cs (constructor_abs _))
    as [HA2 _].
  change (capacity (clear_v1 s)) with (capacity s) in HA1.
  change (capacity (constructor (capacity s))) with (capacity s) in HA2.
  fold s' in HA1. fold new in HA2.
  split_and!.
  - by rewrite (Abs_entries _ _ HA1), (Abs_entries _ _ HA2).
  - intros now key.
    destruct (get_v1_abs _ _ now key HA1) as (-> & _).
    destruct (get_v1_abs _ _ now key HA2) as (-> & _).
    destruct (get_abs _ _ now key HA1) as (-> & _).
    destruct (get_abs _ _ now key HA2) as (-> & _).
    done.
  - apply (run_counters_clear_v1 s cs).
  - apply (run_counters_clear_v1 s cs).
  - apply (run_counters_clear_v1 s cs).
Qed.

(** ** A capacity that is not positive *)

Lemma runL_nonpositive {T} (cap : Z) (cs : list (Call T)) :
  (cap ≤ 0)%Z → runL cap cs [] = [].
Proof.
  intros Hcap. induction cs as [|c cs IH] using rev_ind; [done|].
  unfold runL in *. rewrite foldl_snoc, IH.
  destruct c as [now k v ttl|now k|now k| | |now k|]; try done.
  simpl callL. unfold putL. cbv zeta. rewrite without_nil.
  destruct (Z.ltb_spec cap (Z.of_nat (length [(k, v, (now + ttl)%Z)])))
    as [|Hge]; [done|].
  simpl in Hge. lia.
Qed.

(** X3: with a capacity of 0 or less the cache never holds an entry: every
    [put] evicts the entry it has just linked and counts an eviction, and
    every [get] is a miss. *)
Theorem nonpositive_capacity_keeps_nothing {T} (cap : Z) (cs : list (Call T)) :
  (cap ≤ 0)%Z →
  let s := run cs (constructor cap) in
  entries s = [] ∧ hash s = ∅ ∧
  (∀ now key (value : T) ttl,
     evictionCount (put now key value ttl s) = S (evictionCount s)) ∧
  (∀ now key, (get now key s).1 = None).
Proof.
  intros Hcap s. destruct (reachable_abs cap cs) as [HA Hc]. fold s in HA, Hc.
  rewrite runL_nonpositive in HA by done.
  split_and!.
  - by apply Abs_entries.
  - apply map_size_empty_iff. by rewrite (Abs_size _ _ HA).
  - intros now k v ttl.
    destruct (put_abs _ _ now k v ttl HA) as (_ & _ & _ & _ & ->).
    rewrite Hc, without_nil.
    destruct (Z.ltb_spec cap (Z.of_nat (S (length (@nil (Entry T))))))
      as [|Hge]; [done|].
    simpl in Hge. lia.
  - intros now k. eapply get_absent; [done|]. apply not_elem_of_nil.
Qed.

(** ** The theorems at concrete caches *)

(** C1 at capacity 2: after [put(k1)], [put(k2)], [put(k3)] the key [k1] is
    absent and the two others are present. *)
Lemma lru_evicts_first_put_witness :
  let s := run (putCall <$> [(0%Z, "k1", 1, 100%Z); (1%Z, "k2", 2, 100%Z);
                             (2%Z, "k3", 3, 100%Z)]) (constructor 2) in
  (get 50 "k1" s).1 = None ∧ (get 50 "k2" s).1 = Some 2 ∧
  (get 50 "k3" s).1 = Some 3.
Proof.
  intros s.
  assert (Hnd : NoDup (putKey <$> [(0%Z, "k1", 1, 100%Z);
                                   (1%Z, "k2", 2, 100%Z);
                                   (2%Z, "k3", 3, 100%Z)])).
  { apply (bool_decide_unpack _). vm_compute. exact I. }
  destruct (lru_evicts_first_put 2
              [(0%Z, "k1", 1, 100%Z); (1%Z, "k2", 2, 100%Z);
               (2%Z, "k3", 3, 100%Z)] ltac:(lia) eq_refl Hnd)
    as [_ H].
  pose proof (H 0 _ _ _ _ eq_refl) as H0.
  pose proof (H 1 _ _ _ _ eq_refl) as H1.
  pose proof (H 2 _ _ _ _ eq_refl) as H2.
  simpl in H0, H1, H2. split_and!.
  - apply H0.
  - apply H1. lia.
  - apply H2. lia.
Defined.

(** C2 at the keys [a], [b], [c], [d]. *)
Lemma get_promotes_to_head_witness :
  let s := run [Put 0 "a" 1 100; Put 1 "b" 2 100; Put 2 "c" 3 100;
                Get 50 "a"; Put 60 "d" 4 100] (constructor 3) in
  (get 70 "b" s).1 = None ∧ (get 70 "a" s).1 = Some 1.
Proof.
  intros s.
  assert (Hnd : NoDup ["a"; "b"; "c"; "d"]).
  { apply (bool_decide_unpack _). vm_compute. exact I. }
  destruct (get_promotes_to_head "a" "b" "c" "d" 1 2 3 4
              0 100 1 100 2 100 50 60 100 Hnd ltac:(lia))
    as [(_ & Hb & _ & Ha & _) _].
  split; [apply Hb|apply Ha; lia].
Defined.

(** C3 at capacity 2: a third key on a full cache. *)
Lemma put_respects_capacity_witness :
  let s := run [Put 0 "a" 1 10; Put 1 "b" 2 10] (constructor 2) in
  (Z.of_nat (size (hash s)) ≤ 2)%Z ∧
  evictionCount (put 2 "c" 3 10 s) = S (evictionCount s) ∧
  entries (put 2 "c" 3 10 s) = [("c", 3, 12%Z); ("b", 2, 11%Z)].
Proof.
  intros s.
  destruct (put_respects_capacity 2 [Put 0 "a" 1 10; Put 1 "b" 2 10]
              ltac:(lia)) as (Hsz & _ & H).
  split; [exact Hsz|].
  pose proof (H 2%Z "c" 3 10%Z) as H'. cbv zeta in H'.
  destruct (decide _) as [_|Hn] in H'.
  - destruct H' as (He & Hc & _). split; [exact Hc|].
    etrans; [exact He|reflexivity].
  - exfalso. apply Hn. split; reflexivity.
Defined.

(** C5 at an entry put at time 0 with 1000 ms to live and read at 1100. *)
Lemma expired_entry_is_a_miss_witness :
  let s := put 0 "k" 7 1000 (constructor 3) in
  get 1100 "k" s = (None, miss s) ∧ getOption 1100 "k" s = (none, miss s) ∧
  (get 500 "k" s).1 = Some 7 ∧
  (get_v1 500 "k" s).1 = Some 7 ∧
  (get_v1 1100 "k" s).1 = None ∧ hash (get_v1 1100 "k" s).2 !! "k" = None.
Proof.
  intros s.
  destruct (expired_entry_is_a_miss s 1100 "k" 0
              (LinkedNode.Node "k" 7 1000 None None) eq_refl)
    as (Hexp & _ & _ & _ & Hexp1 & _).
  destruct (expired_entry_is_a_miss s 500 "k" 0
              (LinkedNode.Node "k" 7 1000 None None) eq_refl)
    as (_ & Hlive & _ & Hlive1 & _).
  destruct (Hexp ltac:(simpl; lia)) as (Hg & Ho & _).
  destruct (Hlive ltac:(simpl; lia)) as (Hv & _).
  destruct (Hlive1 ltac:(simpl; lia)) as (_ & Hv1).
  destruct (Hexp1 3%Z [Put 0 "k" 7 1000] eq_refl ltac:(simpl; lia))
    as (Hg1 & _ & _ & _ & Hk1 & _).
  split_and!; [exact Hg|exact Ho|exact Hv|exact Hv1|exact Hg1|exact Hk1].
Defined.

(** C6 at capacity 2. *)
Lemma put_twice_replaces_witness :
  let s1 := put 1 "k" 1 10 (run [Put 0 "x" 0 10] (constructor 2)) in
  let s2 := put 2 "k" 2 10 s1 in
  (get 5 "k" s2).1 = Some 2 ∧ size (hash s2) = size (hash s1) ∧
  evictionCount s2 = evictionCount s1.
Proof.
  intros s1 s2.
  destruct (put_twice_replaces 2 [Put 0 "x" 0 10] "k" 1 2 1 10 2 10
              ltac:(lia)) as (Hg & Hsz & _ & _ & _ & Hev).
  split_and!; [apply Hg; lia|exact Hsz|exact Hev].
Defined.

(** C10 at an entry put at time 0 with 1000 ms to live and read at 500. *)
Lemma hit_keeps_expiry_witness :
  let s := run [Put 0 "k" 7 1000] (constructor 2) in
  expiresAt "k" (get 500 "k" s).2 = expiresAt "k" s ∧
  expiresAt "k" (getOption 500 "k" s).2 = expiresAt "k" s.
Proof.
  intros s.
  destruct (hit_keeps_expiry 2 [Put 0 "k" 7 1000] 500 "k" 7 eq_refl)
    as (_ & Hg & Ho & _).
  split; [exact Hg|exact Ho].
Defined.

(** X1 at an entry put at time 0 with 1000 ms to live and read at 1100: the
    entry is gone. *)
Lemma get_v1_drops_expired_entry_witness :
  let s := run [Put 0 "k" 7 1000] (constructor 3) in
  (get_v1 1100 "k" s).1 = None ∧ hash (get_v1 1100 "k" s).2 !! "k" = None.
Proof.
  intros s.
  destruct (get_v1_drops_expired_entry 3 [Put 0 "k" 7 1000] 1100 "k" 0
              (LinkedNode.Node "k" 7 1000 None None) eq_refl
              ltac:(simpl; lia)) as (Hg & Hk & _).
  split; [exact Hg|exact Hk].
Defined.

(** X3 at capacity 0: the entry put is evicted at once. *)
Lemma nonpositive_capacity_keeps_nothing_witness :
  let s := run [Put 0 "k" 7 1000] (constructor 0) in
  entries s = [] ∧ (get 1 "k" s).1 = None.
Proof.
  intros s.
  destruct (nonpositive_capacity_keeps_nothing 0 [Put 0 "k" 7 1000]
              ltac:(lia)) as (He & _ & _ & Hg).
  split; [exact He|apply Hg].
Defined.

(** * Further properties *)

(** ** Reads and writes of one key and of another *)

Section FindEntry.
Context {T : Type}.
Implicit Types (L : list (Entry T)) (e : Entry T) (k : string).

Lemma findEntry_without_ne k k' L :
  k' ≠ k → findEntry k' (without k L) = findEntry k' L.
Proof.
  intros Hne. induction L as [|e L IH]; [done|].
  destruct (decide (ekey e = k)) as [Hk|Hk].
  - rewrite without_cons_eq by done. simpl.
    rewrite decide_False by congruence. done.
  - rewrite without_cons_ne by done. simpl. by rewrite IH.
Qed.

Lemma findEntry_snoc_ne k' L e :
  ekey e ≠ k' → findEntry k' (L ++ [e]) = findEntry k' L.
Proof.
  intros Hne. induction L as [|e' L IH]; simpl.
  - by rewrite decide_False.
  - by rewrite IH.
Qed.

(** A read leaves every key with the entry it had. *)
Lemma findEntry_getL now k k' L :
  findEntry k' (getL now k L).2 = findEntry k' L.
Proof.
  unfold getL. destruct (findEntry k L) as [e|] eqn:He; [|done].
  destruct (ettl e <? now)%Z; [done|]. simpl.
  apply findEntry_Some in He as He'. destruct He' as [_ Hk].
  destruct (decide (k' = k)) as [->|Hne].
  - by rewrite decide_True.
  - rewrite decide_False by congruence. by apply findEntry_without_ne.
Qed.

(** A read permutes the entries. *)
Lemma getL_Permutation now k L :
  NoDup (ekey <$> L) → (getL now k L).2 ≡ₚ L.
Proof.
  intros Hnd. unfold getL. destruct (findEntry k L) as [e|] eqn:He; [|done].
  destruct (ettl e <? now)%Z; [done|]. simpl.
  apply findEntry_Some in He as [Hin <-].
  apply list_elem_of_split in Hin as (L1 & L2 & ->).
  rewrite without_middle by done. apply Permutation_middle.
Qed.

(** A write leaves every other key with the entry it had, but for the key
    of the last entry. *)
Lemma findEntry_putL cap e L k' :
  k' ≠ ekey e → (Z.of_nat (length L) ≤ cap)%Z ∨ L = [] →
  ekey <$> last L ≠ Some k' →
  findEntry k' (putL cap e L) = findEntry k' L.
Proof.
  intros Hne Hlen Hlast.
  assert (Hroom : findEntry k' (e :: without (ekey e) L) = findEntry k' L).
  { simpl. rewrite decide_False by congruence.
    by apply findEntry_without_ne. }
  destruct (decide (L = [])) as [->|HL].
  { unfold putL. cbv zeta. rewrite without_nil.
    destruct (cap <? _)%Z; simpl; [done|].
    by rewrite decide_False by congruence. }
  destruct Hlen as [Hlen|?]; [|done].
  destruct (decide (ekey e ∈ ekey <$> L)) as [Hin|Hin].
  - apply without_length_lt in Hin. by rewrite putL_room by lia.
  - unfold putL. cbv zeta. rewrite without_notin in Hroom |- * by done.
    destruct (Z.ltb_spec cap (Z.of_nat (length (e :: L)))); [|done].
    destruct (last L) as [t|] eqn:Ht; [|by apply last_None in Ht].
    apply last_Some in Ht as [L1 ->].
    rewrite app_comm_cons, removelast_last.
    simpl. rewrite decide_False by congruence.
    symmetry. apply findEntry_snoc_ne. simpl in Hlast. congruence.
Qed.

Lemma getL_result now k L :
  (getL now k L).1 =
    match findEntry k L with
    | Some e => if (ettl e <? now)%Z then None else Some (evalue e)
    | None => None
    end.
Proof.
  unfold getL. destruct (findEntry k L) as [e|]; [|done].
  by destruct (ettl e <? now)%Z.
Qed.
End FindEntry.

(** X4: on a cache of capacity at least 1, in any state reached by calls,
    a [get] of the key just put returns the value put unless the entry is
    expired by then ([now + ttl < now']), in which case it returns
    [undefined]; [getOption] returns the same, wrapped. *)
Theorem get_after_put {T} (cap : Z) (cs : list (Call T)) (now : Z)
    (key : string) (value : T) (ttl now' : Z) :
  (1 ≤ cap)%Z →
  let s' := put now key value ttl (run cs (constructor cap)) in
  (get now' key s').1
    = (if (now + ttl <? now')%Z then None else Some value) ∧
  (getOption now' key s').1
    = (if (now + ttl <? now')%Z then none else some value).
Proof.
  intros Hcap s'. destruct (reachable_abs cap cs) as [HA Hc].
  destruct (put_abs _ _ now key value ttl HA) as (HA' & _).
  fold s' in HA'. rewrite Hc in HA'.
  destruct (putL_head cap (key, value, (now + ttl)%Z) (runL cap cs []) Hcap)
    as (L' & HL' & _).
  rewrite HL' in HA'.
  destruct (get_abs _ _ now' key HA') as (Hres & _).
  rewrite getOption_get, Hres, getL_result. simpl.
  rewrite decide_True by done. simpl.
  by destruct (now + ttl <? now')%Z.
Qed.

(** X5: in any state reached by calls, a [put] does not change what [get]
    returns for another key, unless that key is the one of the last entry of
    the recency list (the entry a [put] over the capacity evicts). *)
Theorem put_keeps_other_keys {T} (cap : Z) (cs : list (Call T)) (now : Z)
    (key : string) (value : T) (ttl : Z) (key' : string) (now' : Z) :
  key' ≠ key →
  let s := run cs (constructor cap) in
  ekey <$> last (entries s) ≠ Some key' →
  (get now' key' (put now key value ttl s)).1 = (get now' key' s).1.
Proof.
  intros Hne s Hlast. destruct (reachable_abs cap cs) as [HA Hc].
  fold s in HA, Hc. rewrite (Abs_entries _ _ HA) in Hlast.
  destruct (put_abs _ _ now key value ttl HA) as (HA' & _).
  rewrite Hc in HA'.
  destruct (get_abs _ _ now' key' HA) as (-> & _).
  destruct (get_abs _ _ now' key' HA') as (-> & _).
  rewrite !getL_result, findEntry_putL; [done|done| |done].
  destruct (Z.le_gt_cases 0 cap).
  - left. by apply runL_length.
  - right. apply runL_nonpositive. lia.
Qed.


(** X7: the [get] of release 1.0.1 and the [get] of release 1.3.0 return
    the same result and leave the same state, in every state, for a key that
    is not indexed and for a key whose entry is not expired; they differ
    only on expired entries. *)
Theorem get_v1_agrees_on_live_entries {T} (s : LRUCache T) (now : Z)
    (key : string) :
  match lookup key s with
  | Some (_, n) => (now ≤ LinkedNode.ttl n)%Z
  | None => True
  end →
  get_v1 now key s = get now key s.
Proof.
  unfold get_v1, get. destruct (lookup key s) as [[r n]|] eqn:Hl; [|done].
  intros Hlive. apply lookup_Some in Hl as [_ Hn].
  pose proof (evict_dataAt s r r) as Hd. unfold dataAt in Hd.
  rewrite Hn in Hd.
  destruct (Z.ltb_spec (LinkedNode.ttl n) now); [lia|].
  destruct (heap (evict r s) !! r) as [n1|]; [|done].
  apply (inj Some) in Hd.
  assert (LinkedNode.ttl n1 = LinkedNode.ttl n) as ->
    by (change (ettl (data n1) = ettl (data n)); by rewrite Hd).
  by destruct (Z.ltb_spec (LinkedNode.ttl n) now); [lia|].
Qed.

(** ** The counters *)

Section Counters.
Context {T : Type}.
Implicit Types (s : LRUCache T) (L : list (Entry T)) (c : Call T)
  (cs : list (Call T)).

(** What a call does to the number of reads counted. *)
Lemma call_reads s L c :
  Abs s L →
  hitCount (call c s) + missCount (call c s) =
    match c with
    | Get _ _ | GetOption _ _ | GetV1 _ _ => S (hitCount s + missCount s)
    | Clear | ClearMetrics => 0
    | Put _ _ _ _ | ClearV1 => hitCount s + missCount s
    end.
Proof.
  intros HA. destruct c as [now k v ttl|now k|now k| | |now k|]; simpl.
  - destruct (put_abs _ _ now k v ttl HA) as (_ & _ & -> & -> & _). done.
  - destruct (get_abs _ _ now k HA) as (_ & _ & _ & _ & -> & ->).
    destruct (getL now k L).1; lia.
  - rewrite getOption_get. simpl.
    destruct (get_abs _ _ now k HA) as (_ & _ & _ & _ & -> & ->).
    destruct (getL now k L).1; lia.
  - done.
  - done.
  - destruct (get_v1_abs _ _ now k HA) as (_ & _ & _ & _ & -> & ->).
    destruct (getL_v1 now k L).1; lia.
  - done.
Qed.
End Counters.

(** X8: every [get] and [getOption] (of either release) is counted once,
    as a hit or as a miss: after any sequence of calls on a new cache,
    [hitCount + missCount] is the number of reads since the last [clear] or
    [clearMetrics] of release 1.3.0 (the number of all reads when there was
    none); a [get] that returns a value adds one hit and no miss, a [get]
    that returns [undefined] adds one miss and no hit. *)
Theorem reads_are_counted_once {T} (cap : Z) (cs : list (Call T)) :
  let s := run cs (constructor cap) in
  hitCount s + missCount s = readsSinceReset cs ∧
  ∀ now key,
    let r := get now key s in
    (hitCount r.2, missCount r.2) =
      if r.1 is Some _ then (S (hitCount s), missCount s)
      else (hitCount s, S (missCount s)).
Proof.
  split.
  - induction cs as [|c cs IH] using rev_ind; [done|].
    destruct (reachable_abs cap cs) as [HA _].
    pose proof (call_reads _ _ c HA) as Hcall.
    unfold run, readsSinceReset in *. rewrite !foldl_snoc, Hcall, IH.
    by destruct c.
  - intros now key r. destruct (reachable_abs cap cs) as [HA _].
    destruct (get_abs _ _ now key HA) as (Hres & _ & _ & _ & Hh & Hm).
    subst r. rewrite Hh, Hm, Hres. by destruct (getL now key _).1.
Qed.

(** X9: on a new cache of capacity [cap], not negative, [n] calls of [put]
    with distinct keys leave [min n cap] entries and have evicted
    [n - cap] entries ([0] when [n ≤ cap]); no read is counted. *)
Theorem distinct_puts_fill_then_evict {T} (cap : Z)
    (puts : list (Z * string * T * Z)) :
  (0 ≤ cap)%Z → NoDup (putKey <$> puts) →
  let s := run (putCall <$> puts) (constructor cap) in
  size (hash s) = length puts `min` Z.to_nat cap ∧
  evictionCount s = length puts - Z.to_nat cap ∧
  hitCount s = 0 ∧ missCount s = 0.
Proof.
  intros Hcap. induction puts as [|p puts IH] using rev_ind; intros Hnd s.
  - done.
  - subst s. rewrite fmap_app in Hnd. rewrite fmap_app. simpl in Hnd |- *.
    apply NoDup_app in Hnd as (Hnd & Hdisj & _).
    destruct (IH Hnd) as (_ & IHev & IHh & IHm). clear IH.
    destruct (reachable_abs cap (putCall <$> puts)) as [HA Hc].
    rewrite runL_puts in HA by done.
    unfold run in *. rewrite foldl_snoc.
    set (s := foldl (λ s c, call c s) (constructor cap) (putCall <$> puts))
      in *.
    destruct p as [[[now k] v] ttl]. simpl.
    destruct (put_abs _ _ now k v ttl HA) as (HA' & _ & Hh & Hm & Hev).
    rewrite Hh, Hm, Hev, Hc, IHev.
    assert (Hk : k ∉ ekey <$>
              take (Z.to_nat cap) (reverse (putEntry <$> puts))).
    { intros Hin. apply list_elem_of_fmap in Hin as (e & He & Hin).
      apply elem_of_take in Hin as (i & Hin%list_elem_of_lookup_2 & _).
      rewrite elem_of_reverse in Hin.
      apply list_elem_of_fmap in Hin as (p' & -> & Hin).
      rewrite ekey_putEntry in He.
      eapply (Hdisj (putKey p')).
      - apply list_elem_of_fmap. eauto.
      - rewrite <- He. by left. }
    rewrite without_notin by done.
    rewrite (Abs_size _ _ HA'), Hc. unfold putL. cbv zeta.
    change (ekey (k, v, (now + ttl)%Z)) with k.
    rewrite without_notin by done.
    set (R := take (Z.to_nat cap) (reverse (putEntry <$> puts))) in *.
    assert (HlenR : length R = Z.to_nat cap `min` length puts).
    { subst R. by rewrite length_take, length_reverse, length_fmap. }
    rewrite length_app, !length_cons.
    destruct (Z.ltb_spec cap (Z.of_nat (S (length R)))).
    + rewrite length_removelast, length_cons. simpl. lia.
    + rewrite length_cons. simpl. lia.
Qed.

(** X10: what a cache does is determined by its capacity and its list of
    entries: two states reached by different calls on caches of the same
    capacity, with the same entries in the same order, return the same
    results to the same calls from then on and keep the same entries,
    whatever their counters and the nodes left in the store. *)
Theorem entries_determine_behaviour {T} (cap : Z) (cs1 cs2 cs : list (Call T))
    (now : Z) (key : string) :
  let s1 := run cs1 (constructor cap) in
  let s2 := run cs2 (constructor cap) in
  entries s1 = entries s2 →
  entries (run cs s1) = entries (run cs s2) ∧
  (get now key (run cs s1)).1 = (get now key (run cs s2)).1 ∧
  (getOption now key (run cs s1)).1 = (getOption now key (run cs s2)).1.
Proof.
  intros s1 s2 He.
  destruct (reachable_abs cap cs1) as [HA1 Hc1].
  destruct (reachable_abs cap cs2) as [HA2 Hc2].
  fold s1 in HA1, Hc1. fold s2 in HA2, Hc2.
  rewrite (Abs_entries _ _ HA1), (Abs_entries _ _ HA2) in He.
  destruct (run_abs _ _ cs HA1) as [HR1 _].
  destruct (run_abs _ _ cs HA2) as [HR2 _].
  rewrite Hc1 in HR1. rewrite Hc2, <- He in HR2.
  rewrite (Abs_entries _ _ HR1), (Abs_entries _ _ HR2).
  rewrite !getOption_get. simpl.
  destruct (get_abs _ _ now key HR1) as (-> & _).
  destruct (get_abs _ _ now key HR2) as (-> & _).
  done.
Qed.

(** ** The debug dump *)

Section DumpFacts.
Context {T : Type}.
Implicit Types (h : list (LinkedNode T)) (l : list ref).

Lemma debugLoop_seg h p l left i :
  dlseg h p l None → length l ≤ left →
  (data ∘ snd) <$> debugLoop h left i (hd_error l) = omap (dataAt h) l ∧
  fst <$> debugLoop h left i (hd_error l) = seq i (length l).
Proof.
  revert p left i. induction l as [|r l IH]; intros p left i.
  - by destruct left.
  - intros (n & Hn & _ & Hnext & Hseg) Hlen. simpl in Hlen.
    destruct left as [|left]; [lia|].
    destruct (IH (Some r) left (S i) Hseg ltac:(lia)) as [IH1 IH2].
    change (debugLoop h (S left) i (hd_error (r :: l)))
      with (match h !! r with
            | Some n => (i, n) :: debugLoop h left (S i) (LinkedNode.next n)
            | None => []
            end).
    rewrite Hn, Hnext, firstOr_None, !fmap_cons, IH1, IH2.
    split; [|done].
    change (omap (dataAt h) (r :: l))
      with (match dataAt h r with
            | Some y => y :: omap (dataAt h) l
            | None => omap (dataAt h) l
            end).
    unfold dataAt at 2. by rewrite Hn.
Qed.
End DumpFacts.

(** X11: in any state reached by calls, the loop of [debugLRU] writes one
    line for every entry of the cache, in recency order from the head, with
    the indices 0, 1, 2, ...: the bound [i < capacity] cuts nothing off. *)
Theorem debugLRU_lists_every_entry {T} (cap : Z) (cs : list (Call T)) :
  let s := run cs (constructor cap) in
  (data ∘ snd) <$> debugNodes s = entries s ∧
  fst <$> debugNodes s = seq 0 (size (hash s)).
Proof.
  intros s. destruct (reachable_abs cap cs) as [[l HR] Hc]. fold s in HR, Hc.
  pose proof HR as (Hch & [_ Hsz] & Hview).
  assert (Hlen : length l ≤ Z.to_nat cap).
  { rewrite (Forall2_length _ _ _ Hview).
    destruct (Z.le_gt_cases 0 cap).
    - pose proof (runL_length cap cs ltac:(lia)). lia.
    - rewrite runL_nonpositive by lia. simpl. lia. }
  unfold debugNodes. rewrite Hc, (chain_head _ _ Hch), Hsz.
  destruct (debugLoop_seg (heap s) None l (Z.to_nat cap) 0
              (chain_seg _ _ Hch) Hlen) as [-> ->].
  split; [|done].
  rewrite (Repr_entries _ _ _ HR). by apply view_omap.
Qed.

(** ** The cache and the calls that filled it *)

Section HistoryFacts.
Context {T : Type}.
Implicit Types (L : list (Entry T)) (e : Entry T) (k : string)
  (c : Call T) (cs : list (Call T)).

Lemma lastPut_snoc k cs c :
  lastPut k (cs ++ [c]) =
    match c with
    | Put now k' v ttl =>
        if decide (k' = k) then Some (k', v, (now + ttl)%Z)
        else lastPut k cs
    | Clear | ClearV1 => None
    | Get _ _ | GetOption _ _ | GetV1 _ _ | ClearMetrics => lastPut k cs
    end.
Proof. unfold lastPut. by rewrite foldl_snoc. Qed.

Lemma putKeys_snoc cs c :
  putKeys (cs ++ [c]) =
    putKeys cs ++ match c with Put _ k _ _ => [k] | _ => [] end.
Proof. unfold putKeys. rewrite omap_app. by destruct c. Qed.

Lemma elem_of_putL cap e L x :
  x ∈ putL cap e L → x = e ∨ (x ∈ L ∧ ekey x ≠ ekey e).
Proof.
  unfold putL. cbv zeta. intros Hin.
  assert (Hin' : x ∈ e :: without (ekey e) L).
  { destruct (cap <? _)%Z; [by apply elem_of_removelast|done]. }
  apply elem_of_cons in Hin' as [?|Hin']; [by left|right].
  by apply elem_of_without in Hin'.
Qed.

Lemma findEntry_getL_v1 now k k' L e :
  findEntry k' (getL_v1 now k L).2 = Some e → findEntry k' L = Some e.
Proof.
  unfold getL_v1. destruct (findEntry k L) as [e0|] eqn:He; [|done].
  apply findEntry_Some in He as He'. destruct He' as [_ Hk].
  destruct (decide (k' = k)) as [->|Hne].
  - destruct (ettl e0 <? now)%Z; simpl.
    + intros Hf. apply findEntry_Some in Hf as [Hin Hke].
      by apply elem_of_without in Hin as [_ ?].
    + rewrite decide_True by done. congruence.
  - destruct (ettl e0 <? now)%Z; simpl.
    + by rewrite findEntry_without_ne.
    + rewrite decide_False by congruence. by rewrite findEntry_without_ne.
Qed.

(** An entry of the list is the entry of the last [put] of its key. *)
Lemma runL_lastPut cap cs k e :
  findEntry k (runL cap cs []) = Some e → lastPut k cs = Some e.
Proof.
  revert e. induction cs as [|c cs IH] using rev_ind; intros e; [done|].
  destruct (reachable_abs cap cs) as [HA _].
  pose proof (Abs_keys_NoDup _ _ HA) as Hnd.
  rewrite lastPut_snoc. unfold runL in *. rewrite foldl_snoc.
  set (L := foldl (λ L c, callL cap c L) [] cs) in *.
  destruct c as [now k0 v ttl|now k0|now k0| | |now k0|]; simpl.
  - intros He. apply findEntry_Some in He as [Hin Hk].
    apply elem_of_putL in Hin as [->|[Hin Hne]].
    + simpl in Hk. by rewrite decide_True.
    + change (ekey e ≠ k0) in Hne. rewrite decide_False by congruence.
      apply IH. rewrite <- Hk. by apply findEntry_elem.
  - rewrite findEntry_getL. apply IH.
  - rewrite findEntry_getL. apply IH.
  - done.
  - apply IH.
  - intros He%findEntry_getL_v1. by apply IH.
  - done.
Qed.
End HistoryFacts.

(** X12: [get] never returns a stale value: in any state reached by calls
    on a new cache, a value returned for a key is the value of the last
    [put] of that key, no [clear] was called since that [put], and the
    entry of that [put] is not expired at the time of the [get]. *)
Theorem get_returns_last_put {T} (cap : Z) (cs : list (Call T)) (now : Z)
    (key : string) (v : T) :
  (get now key (run cs (constructor cap))).1 = Some v →
  ∃ e, lastPut key cs = Some e ∧ ekey e = key ∧ evalue e = v ∧
       (now ≤ ettl e)%Z.
Proof.
  intros Hv. destruct (reachable_abs cap cs) as [HA _].
  destruct (get_hit _ _ _ _ _ HA Hv) as (e & He & Hk & Hval & Hlive & _).
  exists e. split_and!; try done. by eapply runL_lastPut.
Qed.

Section BelowCapacity.
Context {T : Type}.
Implicit Types (L : list (Entry T)) (e : Entry T) (k : string)
  (c : Call T) (cs : list (Call T)).

Lemma without_keys_NoDup k L :
  NoDup (ekey <$> L) → NoDup (ekey <$> without k L).
Proof.
  induction L as [|e L IH]; [done|].
  rewrite fmap_cons, NoDup_cons. intros [Hnot Hnd].
  destruct (decide (ekey e = k)) as [Hk|Hk].
  - rewrite without_cons_eq by done. by apply IH.
  - rewrite without_cons_ne, fmap_cons by done.
    apply NoDup_cons. split; [|by apply IH].
    intros Hin. apply Hnot.
    apply list_elem_of_fmap in Hin as (x & -> & Hin).
    apply elem_of_without in Hin as [Hin _].
    apply list_elem_of_fmap. by exists x.
Qed.

Lemma remove_dups_length_app (xs ys : list string) :
  length (remove_dups xs) ≤ length (remove_dups (xs ++ ys)).
Proof.
  apply submseteq_length, NoDup_submseteq; [apply NoDup_remove_dups|].
  intros x. rewrite !elem_of_remove_dups, elem_of_app. tauto.
Qed.

(** As long as the calls put no more distinct keys than the capacity, no
    [put] goes over it, and the list holds, for every key, the entry of the
    last [put]. *)
Lemma runL_below_capacity cap cs :
  forallb (λ c, negb (isV1 c)) cs = true →
  (Z.of_nat (length (remove_dups (putKeys cs))) ≤ cap)%Z →
  (∀ k, findEntry k (runL cap cs []) = lastPut k cs) ∧
  (∀ k, k ∈ ekey <$> runL cap cs [] → k ∈ putKeys cs) ∧
  evictionCount (run cs (constructor cap)) = 0.
Proof.
  induction cs as [|c cs IH] using rev_ind; intros Hv1 Hkeys.
  { by split_and!. }
  rewrite forallb_app in Hv1. apply andb_prop in Hv1 as [Hv1 Hc1].
  rewrite putKeys_snoc in Hkeys.
  pose proof (remove_dups_length_app (putKeys cs)
                match c with Put _ k _ _ => [k] | _ => [] end) as Hmono.
  destruct (IH Hv1 ltac:(lia)) as (IHa & IHb & IHc). clear IH.
  destruct (reachable_abs cap cs) as [HA Hc].
  pose proof (Abs_keys_NoDup _ _ HA) as Hnd.
  unfold run, runL in *. rewrite !foldl_snoc.
  set (L := foldl (λ L c, callL cap c L) [] cs) in *.
  set (s := foldl (λ s c, call c s) (constructor cap) cs) in *.
  destruct c as [now k0 v ttl|now k0|now k0| | |now k0|];
    try discriminate; simpl call; simpl callL.
  - assert (Hroom : (Z.of_nat (S (length (without k0 L))) ≤ cap)%Z).
    { assert (Hsub : k0 :: (ekey <$> without k0 L)
                       ⊆+ remove_dups (putKeys cs ++ [k0])).
      { apply NoDup_submseteq.
        - apply NoDup_cons. split; [apply without_keys_notin|].
          by apply without_keys_NoDup.
        - intros x Hin. rewrite elem_of_remove_dups, elem_of_app.
          apply elem_of_cons in Hin as [->|Hin]; [right; by left|left].
          apply IHb. apply list_elem_of_fmap in Hin as (y & -> & Hin).
          apply elem_of_without in Hin as [Hin _].
          apply list_elem_of_fmap. by exists y. }
      apply submseteq_length in Hsub. simpl in Hsub.
      rewrite length_fmap in Hsub. lia. }
    rewrite putL_room by done. split_and!.
    + intros k. rewrite lastPut_snoc. simpl.
      change (ekey (k0, v, (now + ttl)%Z)) with k0.
      destruct (decide (k0 = k)) as [?|Hne]; [done|].
      rewrite findEntry_without_ne by congruence. apply IHa.
    + intros k. rewrite putKeys_snoc, fmap_cons, elem_of_cons, elem_of_app.
      intros [->|Hin]; [right; by left|left].
      apply IHb. apply list_elem_of_fmap in Hin as (y & -> & Hin).
      apply elem_of_without in Hin as [Hin _].
      apply list_elem_of_fmap. by exists y.
    + destruct (put_abs _ _ now k0 v ttl HA) as (_ & _ & _ & _ & ->).
      rewrite Hc.
      by destruct (Z.ltb_spec cap (Z.of_nat (S (length (without k0 L)))));
        [lia|].
  - split_and!.
    + intros k. rewrite lastPut_snoc, findEntry_getL. apply IHa.
    + intros k. rewrite putKeys_snoc, app_nil_r.
      rewrite (getL_Permutation now k0 L Hnd). apply IHb.
    + by destruct (get_abs _ _ now k0 HA) as (_ & _ & _ & -> & _).
  - rewrite getOption_get. simpl. split_and!.
    + intros k. rewrite lastPut_snoc, findEntry_getL. apply IHa.
    + intros k. rewrite putKeys_snoc, app_nil_r.
      rewrite (getL_Permutation now k0 L Hnd). apply IHb.
    + by destruct (get_abs _ _ now k0 HA) as (_ & _ & _ & -> & _).
  - split_and!; try done.
    + intros k. by rewrite lastPut_snoc.
    + intros k Hin. by apply elem_of_nil in Hin.
  - split_and!; try done.
    + intros k. rewrite lastPut_snoc. apply IHa.
    + intros k. rewrite putKeys_snoc, app_nil_r. apply IHb.
Qed.
End BelowCapacity.

(** X13: as long as the calls (of release 1.3.0) put no more distinct keys
    than the capacity, the cache evicts nothing and is a map with expiry:
    [get(key)] returns the value of the last [put] of the key since the last
    [clear], if there is one and its entry is not expired, and [undefined]
    otherwise. *)
Theorem cache_is_a_map_below_capacity {T} (cap : Z) (cs : list (Call T))
    (now : Z) (key : string) :
  forallb (λ c, negb (isV1 c)) cs = true →
  (Z.of_nat (length (remove_dups (putKeys cs))) ≤ cap)%Z →
  let s := run cs (constructor cap) in
  (get now key s).1 =
    match lastPut key cs with
    | Some e => if (ettl e <? now)%Z then None else Some (evalue e)
    | None => None
    end ∧
  evictionCount s = 0.
Proof.
  intros Hv1 Hkeys s.
  destruct (runL_below_capacity cap cs Hv1 Hkeys) as (Ha & _ & Hev).
  destruct (reachable_abs cap cs) as [HA _].
  destruct (get_abs _ _ now key HA) as (Hres & _).
  split; [|done]. subst s. by rewrite Hres, getL_result, Ha.
Qed.

(** ** Recently used entries stay *)

Section Survival.
Context {T : Type}.
Implicit Types (L A B : list (Entry T)) (e : Entry T) (k : string)
  (c : Call T) (cs : list (Call T)).

Lemma touchedKeys_snoc cs c :
  touchedKeys (cs ++ [c]) =
    touchedKeys cs ++
    match c with
    | Put _ k _ _ | Get _ k | GetOption _ k | GetV1 _ k => [k]
    | Clear | ClearMetrics | ClearV1 => []
    end.
Proof. unfold touchedKeys. rewrite omap_app. by destruct c. Qed.

Lemma without_app k L1 L2 :
  without k (L1 ++ L2) = without k L1 ++ without k L2.
Proof. unfold without. apply filter_app. Qed.

Lemma removelast_app_cons {X} (xs : list X) (y z : X) (ys : list X) :
  removelast (xs ++ y :: z :: ys) = xs ++ y :: removelast (z :: ys).
Proof. by rewrite removelast_app. Qed.

(** The list after the calls, from a list in which [k] has an entry with
    the entries [A] before it: the entries before the entry of [k] are of
    keys that were used, or were before it already. *)
Lemma runL_survives cap cs k (s0 : LRUCache T) A0 e0 B0 :
  Abs s0 (A0 ++ e0 :: B0) → capacity s0 = cap → ekey e0 = k →
  forallb (λ c, negb (dropsEntries c)) cs = true →
  (Z.of_nat (length (remove_dups
     ((ekey <$> A0) ++ others k (touchedKeys cs)))) < cap)%Z →
  ∃ A e B,
    runL cap cs (A0 ++ e0 :: B0) = A ++ e :: B ∧ ekey e = k ∧
    ∀ x, x ∈ ekey <$> A → x ∈ (ekey <$> A0) ++ others k (touchedKeys cs).
Proof.
  intros HA0 Hcap0 Hk0.
  induction cs as [|c cs IH] using rev_ind; intros Hkeep Hfew.
  { exists A0, e0, B0. split_and!; try done.
    intros x Hin. apply elem_of_app. by left. }
  rewrite forallb_app in Hkeep. apply andb_prop in Hkeep as [Hkeep Hc].
  rewrite touchedKeys_snoc in Hfew |- *. unfold others in Hfew |- *.
  rewrite filter_app in Hfew |- *.
  assert (Hmono : ∀ ys,
    length (remove_dups ((ekey <$> A0) ++ others k (touchedKeys cs))) ≤
    length (remove_dups ((ekey <$> A0) ++
              filter (λ k', k' ≠ k) (touchedKeys cs) ++ ys))).
  { intros ys. rewrite (app_assoc _ _ ys). apply remove_dups_length_app. }
  destruct (IH Hkeep ltac:(specialize (Hmono
              (filter (λ k', k' ≠ k)
                 match c with
                 | Put _ k1 _ _ | Get _ k1 | GetOption _ k1 | GetV1 _ k1 =>
                     [k1]
                 | _ => []
                 end)); lia))
    as (A & e & B & HL & Hk & HA). clear IH.
  destruct (run_abs _ _ cs HA0) as [HAbs _]. rewrite Hcap0 in HAbs.
  pose proof (Abs_keys_NoDup _ _ HAbs) as Hnd.
  unfold runL in *. rewrite foldl_snoc.
  set (L := foldl (λ L c, callL cap c L) (A0 ++ e0 :: B0) cs) in *.
  rewrite HL in Hnd |- *. clear HL L HAbs.
  assert (HA' : ∀ ys x, x ∈ ekey <$> A →
            x ∈ (ekey <$> A0) ++
                filter (λ k', k' ≠ k) (touchedKeys cs) ++ ys).
  { intros ys x Hin. apply HA in Hin.
    rewrite !elem_of_app in *. tauto. }
  (* an entry found by a read, put first *)
  assert (Hget : ∀ now k2,
    ∃ A1 e1 B1,
      (getL now k2 (A ++ e :: B)).2 = A1 ++ e1 :: B1 ∧ ekey e1 = k ∧
      ∀ x, x ∈ ekey <$> A1 →
           x ∈ (ekey <$> A0) ++
               filter (λ k', k' ≠ k) (touchedKeys cs) ++
               filter (λ k', k' ≠ k) [k2]).
  { intros now k2. unfold getL.
    destruct (findEntry k2 (A ++ e :: B)) as [e2|] eqn:He2;
      [|exists A, e, B; split_and!; [done|done|apply HA']].
    destruct (ettl e2 <? now)%Z;
      [exists A, e, B; split_and!; [done|done|apply HA']|].
    simpl. apply findEntry_Some in He2 as He2'. destruct He2' as [_ Hk2].
    destruct (decide (k2 = k)) as [->|Hne].
    - exists [], e2, (without k (A ++ e :: B)). split_and!; try done.
      intros x Hin. by apply elem_of_nil in Hin.
    - rewrite without_app, without_cons_ne by congruence.
      exists (e2 :: without k2 A), e, (without k2 B).
      split_and!; try done.
      intros x. rewrite fmap_cons, elem_of_cons.
      rewrite filter_cons_True, filter_nil by done.
      intros [->|Hin].
      + rewrite Hk2, !elem_of_app. right. right. by left.
      + apply HA'. apply list_elem_of_fmap in Hin as (y & -> & Hin).
        apply elem_of_without in Hin as [Hin _].
        apply list_elem_of_fmap. by exists y. }
  destruct c as [now k2 v ttl|now k2|now k2| | |now k2|];
    try discriminate; simpl callL.
  - (* put *)
    destruct (decide (k2 = k)) as [->|Hne].
    { destruct (putL_head cap (k, v, (now + ttl)%Z) (A ++ e :: B)
                  ltac:(lia)) as (L' & -> & _).
      exists [], (k, v, (now + ttl)%Z), L'. split_and!; try done.
      intros x Hin. by apply elem_of_nil in Hin. }
    rewrite filter_cons_True, filter_nil in Hfew |- * by done.
    set (e2 := (k2, v, (now + ttl)%Z)).
    assert (HW : without k2 (A ++ e :: B)
                 = without k2 A ++ e :: without k2 B)
      by (by rewrite without_app, without_cons_ne by congruence).
    assert (Hsub : ∀ x, x ∈ ekey <$> e2 :: without k2 A →
              x ∈ (ekey <$> A0) ++
                  filter (λ k', k' ≠ k) (touchedKeys cs) ++ [k2]).
    { intros x. rewrite fmap_cons, elem_of_cons. intros [->|Hin].
      - rewrite !elem_of_app. right. right. by left.
      - apply HA'. apply list_elem_of_fmap in Hin as (y & -> & Hin).
        apply elem_of_without in Hin as [Hin _].
        apply list_elem_of_fmap. by exists y. }
    unfold putL. cbv zeta. change (ekey e2) with k2. rewrite HW.
    destruct (Z.ltb_spec cap
       (Z.of_nat (length (e2 :: without k2 A ++ e :: without k2 B)))).
    + destruct (without k2 B) as [|b B'] eqn:HB.
      * exfalso.
        assert (Hnd2 : NoDup (ekey <$> e2 :: without k2 A)).
        { rewrite fmap_cons. apply NoDup_cons. split.
          - apply without_keys_notin.
          - apply without_keys_NoDup.
            rewrite fmap_app in Hnd. by apply NoDup_app in Hnd as [? _]. }
        assert (Hle : ekey <$> e2 :: without k2 A ⊆+
                  remove_dups ((ekey <$> A0) ++
                    filter (λ k', k' ≠ k) (touchedKeys cs) ++ [k2])).
        { apply NoDup_submseteq; [done|].
          intros x Hin. apply elem_of_remove_dups. by apply Hsub. }
        apply submseteq_length in Hle.
        rewrite length_fmap in Hle.
        rewrite !length_cons, length_app in *. simpl in *. lia.
      * exists (e2 :: without k2 A), e, (removelast (b :: B')).
        split_and!; try done.
        by rewrite app_comm_cons, removelast_app_cons.
    + by exists (e2 :: without k2 A), e, (without k2 B).
  - apply Hget.
  - apply Hget.
  - exists A, e, B. rewrite app_nil_r. by split_and!.
Qed.
End Survival.

(** X14: a recently used entry is not evicted.  In a state reached by calls
    in which [key] has an entry, with the entries [A0] before it in the
    recency list (none when [key] was just put or read), let calls follow
    that are [put], [get], [getOption] or [clearMetrics] of release 1.3.0.
    As long as the keys of [A0] and the other keys these calls use are
    fewer than the capacity, counted without repetition, [key] is still
    indexed afterwards. *)
Theorem recently_used_key_survives {T} (cap : Z) (cs0 cs : list (Call T))
    (key : string) (A0 : list (Entry T)) (e0 : Entry T) (B0 : list (Entry T)) :
  let s0 := run cs0 (constructor cap) in
  entries s0 = A0 ++ e0 :: B0 → ekey e0 = key →
  forallb (λ c, negb (dropsEntries c)) cs = true →
  (Z.of_nat (length (remove_dups
     ((ekey <$> A0) ++ others key (touchedKeys cs)))) < cap)%Z →
  is_Some (hash (run cs s0) !! key).
Proof.
  intros s0 He Hk Hkeep Hfew.
  destruct (reachable_abs cap cs0) as [HA0 Hc0]. fold s0 in HA0, Hc0.
  rewrite (Abs_entries _ _ HA0) in He. rewrite He in HA0.
  destruct (runL_survives cap cs key s0 A0 e0 B0 HA0 Hc0 Hk Hkeep Hfew)
    as (A & e & B & HL & Hke & _).
  destruct (run_abs _ _ cs HA0) as [HA _]. rewrite Hc0, HL in HA.
  apply (Abs_indexed _ _ key HA).
  rewrite fmap_app, fmap_cons, elem_of_app, Hke. right. by left.
Qed.

(** ** The further properties at concrete caches *)

(** X4 at capacity 1: the value is read back before expiry, not after. *)
Lemma get_after_put_witness :
  let s' := put 0 "k" 7 10 (run [] (constructor 1)) in
  (get 5 "k" s').1 = Some 7 ∧ (get 11 "k" s').1 = None.
Proof.
  intros s'. split.
  - apply (get_after_put 1 [] 0 "k" 7 10 5 ltac:(lia)).
  - apply (get_after_put 1 [] 0 "k" 7 10 11 ltac:(lia)).
Defined.

(** X5 at capacity 2: a third key evicts [a] and leaves [b] as it was. *)
Lemma put_keeps_other_keys_witness :
  let s := run [Put 0 "a" 1 100; Put 1 "b" 2 100] (constructor 2) in
  (get 5 "b" (put 2 "c" 3 100 s)).1 = (get 5 "b" s).1.
Proof.
  intros s.
  apply (put_keeps_other_keys 2 [Put 0 "a" 1 100; Put 1 "b" 2 100]
           2 "c" 3 100 "b" 5).
  - discriminate.
  - vm_compute. discriminate.
Defined.

(** X7 at an entry with 1000 ms to live, read at 500. *)
Lemma get_v1_agrees_on_live_entries_witness :
  let s := put 0 "k" 7 1000 (constructor 3) in
  get_v1 500 "k" s = get 500 "k" s.
Proof.
  intros s. apply (get_v1_agrees_on_live_entries s 500 "k").
  vm_compute. discriminate.
Defined.

(** X9 at capacity 2 and three keys. *)
Lemma distinct_puts_fill_then_evict_witness :
  let s := run (putCall <$> [(0%Z, "a", 1, 9%Z); (1%Z, "b", 2, 9%Z);
                             (2%Z, "c", 3, 9%Z)]) (constructor 2) in
  size (hash s) = 2 ∧ evictionCount s = 1.
Proof.
  intros s.
  assert (Hnd : NoDup (putKey <$> [(0%Z, "a", 1, 9%Z); (1%Z, "b", 2, 9%Z);
                                   (2%Z, "c", 3, 9%Z)])).
  { apply (bool_decide_unpack _). vm_compute. exact I. }
  destruct (distinct_puts_fill_then_evict 2
              [(0%Z, "a", 1, 9%Z); (1%Z, "b", 2, 9%Z); (2%Z, "c", 3, 9%Z)]
              ltac:(lia) Hnd) as (Hsz & Hev & _).
  split; [exact Hsz|exact Hev].
Defined.

(** X10 at two histories that leave the one entry of [a]. *)
Lemma entries_determine_behaviour_witness :
  let s1 := run [Put 0 "a" 1 10; Get 5 "a"] (constructor 2) in
  let s2 := run [Put 0 "b" 2 10; Clear; Put 0 "a" 1 10] (constructor 2) in
  entries (run [Put 6 "b" 2 10] s1) = entries (run [Put 6 "b" 2 10] s2) ∧
  (get 7 "a" (run [Put 6 "b" 2 10] s1)).1
    = (get 7 "a" (run [Put 6 "b" 2 10] s2)).1.
Proof.
  intros s1 s2.
  destruct (entries_determine_behaviour 2 [Put 0 "a" 1 10; Get 5 "a"]
              [Put 0 "b" 2 10; Clear; Put 0 "a" 1 10] [Put 6 "b" 2 10]
              7 "a" eq_refl) as (He & Hg & _).
  split; [exact He|exact Hg].
Defined.

(** X12 at a key put twice. *)
Lemma get_returns_last_put_witness :
  ∃ e, lastPut "k" [Put 0 "k" 1 100; Put 1 "k" 2 100] = Some e ∧
       ekey e = "k" ∧ evalue e = 2 ∧ (5 ≤ ettl e)%Z.
Proof.
  apply (get_returns_last_put 2 [Put 0 "k" 1 100; Put 1 "k" 2 100] 5 "k" 2
           eq_refl).
Defined.

(** X13 at capacity 2 and two keys. *)
Lemma cache_is_a_map_below_capacity_witness :
  let s := run [Put 0 "a" 1 100; Put 1 "b" 2 100; Get 2 "a";
                Put 3 "a" 5 100] (constructor 2) in
  (get 4 "a" s).1 = Some 5 ∧ evictionCount s = 0.
Proof.
  intros s.
  destruct (cache_is_a_map_below_capacity 2
              [Put 0 "a" 1 100; Put 1 "b" 2 100; Get 2 "a"; Put 3 "a" 5 100]
              4 "a" eq_refl ltac:(vm_compute; discriminate)) as [Hg Hev].
  split; [exact Hg|exact Hev].
Defined.

(** X14 at capacity 3: [k] is put, then two other keys are used. *)
Lemma recently_used_key_survives_witness :
  let s0 := run [Put 0 "k" 1 100] (constructor 3) in
  is_Some (hash (run [Put 1 "a" 2 100; Put 2 "b" 3 100; Get 3 "a";
                      Put 4 "a" 9 100] s0) !! "k").
Proof.
  intros s0.
  apply (recently_used_key_survives 3 [Put 0 "k" 1 100]
           [Put 1 "a" 2 100; Put 2 "b" 3 100; Get 3 "a"; Put 4 "a" 9 100]
           "k" [] ("k", 1, 100%Z) [] eq_refl eq_refl eq_refl).
  vm_compute. reflexivity.
Defined.
